(** * ReportHistoryStore: a shallow embedding of [src/lib/ReportHistoryStore.jsx]

    The store keeps, per report, an array of history items and talks to
    an API that returns a full or a partial history.  JavaScript arrays
    are mutable objects handed around by reference (the array the API
    resolves with becomes the cache, [reverse] and [unshift] work in
    place), so arrays live in a heap and the code is written in a small
    state-and-exception monad over that heap.

    Sequence numbers are integers ([Z]); the code computes
    [sequenceNumber - 1] in doubles, which is the integer predecessor
    on safe integers (and on every number whose predecessor is cached),
    so statements that rest on a predecessor not being cached assume
    [safe_integer].  Every history the API resolves with is taken to be
    a new array, as a response read off the wire is; an API that hands
    out one array twice is outside this model.  A call to the API is settled
    by the time it returns: the deferred it hands back is resolved or
    rejected, and the callbacks registered with [done] run at once or
    never.  Requests that are still in flight while another method
    runs are outside this model. *)

From Stdlib Require Import ZArith String List Sorted.
From stdpp Require Import base option list gmap sorting strings.

Open Scope Z_scope.

(** ** History items *)

(** A history item as the store reads it: [sequenceNumber] and
    [actionName] are the two fields the code inspects, [message] stands
    for the rest of the object, which the store never looks at. *)
Record historyItem := HistoryItem {
  sequenceNumber : Z;
  actionName : string;
  message : string
}.

#[global] Instance historyItem_eq_dec : EqDecision historyItem.
Proof. solve_decision. Defined.

(** Actions we should never show on web or mobile, but are required to
    store in the cache. *)
Definition HIDDEN_ACTIONS : list string :=
  [ "BILLABLEUPDATETRANSACTION";
    "BILLABLEDELEGATE";
    "QUEUEDFOREXPORT";
    "REIMBURSEMENTACHBOUNCEFASTDEBIT";
    "REIMBURSEMENTRETRYDEBIT";
    "DIGITALSIGNATURE" ]%string.

(** Underscore's [_.contains] on an array of strings. *)
Definition contains (l : list string) (x : string) : bool :=
  existsb (String.eqb x) l.

(** Modelled from the spec: [Str.startsWith] of [./str], which is not
    part of the sources at hand.  The spec excludes a label that "begins
    with a configured reserved prefix", so the helper is the prefix
    test. *)
Definition startsWith (haystack needle : string) : bool :=
  String.prefix needle haystack.

(** Filters out actions we never want to display on web or mobile. *)
Definition filterHiddenActions (historyItems : list historyItem) : list historyItem :=
  List.filter
    (fun historyItem =>
       negb (contains HIDDEN_ACTIONS (actionName historyItem))
       && negb (startsWith (actionName historyItem) "CC"))
    historyItems.

(** Underscore's [_.findWhere list {sequenceNumber: n}]: the first item
    whose [sequenceNumber] is [n], or [undefined]. *)
Definition findWhere (list : list historyItem) (n : Z) : option historyItem :=
  List.find (fun item => sequenceNumber item =? n) list.

(** ** The heap, the store and the API *)

(** A reference to an array: its index in the heap.  Arrays are
    allocated at the end of the heap and never freed. *)
Abbreviation ref := nat (only parsing).

(** A request to [API.Report_GetHistory]: [offset] is [None] when the
    field is left out (the full history is asked for). *)
Record request := Request {
  reportID : Z;
  offset : option Z
}.

#[global] Instance request_eq_dec : EqDecision request.
Proof. solve_decision. Defined.

(** What the API answers: the history it resolves with, or a failure. *)
Inductive response :=
  | Done (reportHistory : list historyItem)
  | Fail.

(** [heap] holds the arrays, [cache] is [this.cache] (report id to the
    array cached for it), [calls] is the trace of the requests made to
    the API so far. *)
Record state := State {
  heap : list (list historyItem);
  cache : gmap Z ref;
  calls : list request
}.

(** The three states of a Deferred. *)
Inductive deferred (A : Type) :=
  | Resolved (a : A)
  | Rejected
  | Pending.
Arguments Resolved {A} a.
Arguments Rejected {A}.
Arguments Pending {A}.

(** A computation either returns or throws a [TypeError] (a method
    called on [undefined]). *)
Inductive result (A : Type) :=
  | Val (a : A)
  | TypeError.
Arguments Val {A} a.
Arguments TypeError {A}.

Definition js (A : Type) : Type := state -> state * result A.

Definition ret {A} (a : A) : js A := fun s => (s, Val a).

Definition bind {A B} (m : js A) (k : A -> js B) : js B :=
  fun s =>
    match m s with
    | (s', Val a) => k a s'
    | (s', TypeError) => (s', TypeError)
    end.

Definition throw {A} : js A := fun s => (s, TypeError).

Notation "x <- m ;; k" := (bind m (fun x => k))
  (at level 100, m at next level, right associativity).
Notation "m >> k" := (bind m (fun _ => k))
  (at level 100, right associativity).

(** *** Arrays *)

(** The items of the array at [a]. *)
Definition items (s : state) (a : ref) : list historyItem :=
  default [] (heap s !! a).

Definition read (a : ref) : js (list historyItem) :=
  fun s => (s, Val (items s a)).

Definition write (a : ref) (l : list historyItem) : js unit :=
  fun s => (State (<[a := l]> (heap s)) (cache s) (calls s), Val tt).

(** A new array holding [l]. *)
Definition alloc (l : list historyItem) : js ref :=
  fun s => (State (heap s ++ [l]) (cache s) (calls s), Val (length (heap s))).

(** [array.reverse()], in place. *)
Definition reverse (a : ref) : js unit :=
  l <- read a ;; write a (rev l).

(** [array.unshift(item)], in place; on [undefined] it throws. *)
Definition unshift (a : option ref) (item : historyItem) : js unit :=
  match a with
  | Some a => l <- read a ;; write a (item :: l)
  | None => throw
  end.

(** [_.findWhere] on something that may be [undefined]: Underscore
    finds nothing in [undefined]. *)
Definition findWhereAt (a : option ref) (n : Z) : js (option historyItem) :=
  match a with
  | Some a => l <- read a ;; ret (findWhere l n)
  | None => ret None
  end.

(** [_.reduce(obj, iteratee, memo)] on an array: the length is read
    once, then [obj[index]] is read from the array as it is at that
    moment and handed to the iteratee ([None] is [undefined], past the
    end). *)
Fixpoint reduce_from {M : Type} (obj : ref)
    (iteratee : M -> option historyItem -> js M)
    (memo : M) (index : nat) (n : nat) : js M :=
  match n with
  | O => ret memo
  | S n' =>
      l <- read obj ;;
      memo' <- iteratee memo (l !! index) ;;
      reduce_from obj iteratee memo' (S index) n'
  end.

Definition reduce {M : Type} (obj : ref)
    (iteratee : M -> option historyItem -> js M) (memo : M) : js M :=
  l <- read obj ;; reduce_from obj iteratee memo 0%nat (length l).

(** *** [this.cache] *)

(** [this.cache[reportID]], [None] for [undefined]. *)
Definition cache_get (reportID : Z) : js (option ref) :=
  fun s => (s, Val (cache s !! reportID)).

(** [this.cache[reportID] = a]; a property set to [undefined] reads
    back as [undefined]. *)
Definition cache_set (reportID : Z) (a : option ref) : js unit :=
  fun s =>
    (State (heap s)
       (match a with
        | Some a => <[reportID := a]> (cache s)
        | None => delete reportID (cache s)
        end)
       (calls s), Val tt).

(** The cached history of a report as a list: the items of
    [this.cache[reportID] || []]. *)
Definition cachedHistory (s : state) (reportID : Z) : list historyItem :=
  match cache s !! reportID with
  | Some a => items s a
  | None => []
  end.

(** ** [mergeItems] *)

(** The callback handed to [_.reduce] in [mergeItems]. *)
Definition mergeIteratee (prev : option ref) (curr : option historyItem)
  : js (option ref) :=
  match curr with
  | None => throw
  | Some curr =>
      found <- findWhereAt prev (sequenceNumber curr) ;;
      match found with
      | Some _ => ret prev
      | None => unshift prev curr >> ret prev
      end
  end.

(** Merges partial history items into the cache. *)
Definition mergeItems (reportID : Z) (newHistory : ref) : js unit :=
  l <- read newHistory ;;
  if (length l =? 0)%nat then ret tt
  else
    reverse newHistory >>
    memo <- cache_get reportID ;;
    merged <- reduce newHistory mergeIteratee memo ;;
    cache_set reportID merged.

(** ** The store's methods *)

(** The items of a value that is an array or [undefined]: Underscore
    treats [undefined] as an empty collection, and
    [this.cache[reportID] || []] is empty when nothing is cached. *)
Definition readAt (a : option ref) : js (list historyItem) :=
  match a with
  | Some a => read a
  | None => ret []
  end.

(** [const promise = new Deferred(); d.done(a => k a); return promise]
    where [k] settles [promise]: callbacks registered with [done] run
    only when [d] resolves, otherwise [promise] is never settled. *)
Definition done {A B} (d : deferred A) (k : A -> js (deferred B)) : js (deferred B) :=
  match d with
  | Resolved a => k a
  | Rejected | Pending => ret Pending
  end.

(** [promise.resolve(this.filterHiddenActions(history))]; the filter
    builds a new array, which is handed to the caller as a list. *)
Definition resolveFiltered (history : option ref) : js (deferred (list historyItem)) :=
  l <- readAt history ;; ret (Resolved (filterHiddenActions l)).

Section ReportHistoryStore.

(** The platform specific API the store is instantiated with.  Its
    answer may depend on the requests made before. *)
Variable Report_GetHistory : list request -> request -> response.

(** [this.API.Report_GetHistory(parameters)]: the call is logged; a
    history the API resolves with is a new array. *)
Definition API_Report_GetHistory (parameters : request) : js (deferred ref) :=
  fun s =>
    let s' := State (heap s) (cache s) (calls s ++ [parameters]) in
    match Report_GetHistory (calls s) parameters with
    | Done reportHistory =>
        (reportHistory' <- alloc reportHistory ;; ret (Resolved reportHistory')) s'
    | Fail => (s', Val Rejected)
    end.

(** Fetches the entire report history from the API.  The deferred
    returned is the API's own. *)
Definition fetchAll (reportID : Z) : js (deferred ref) :=
  d <- API_Report_GetHistory (Request reportID None) ;;
  match d with
  | Resolved reportHistory =>
      cache_set reportID (Some reportHistory) >> ret d
  | Rejected | Pending => ret d
  end.

(** Gets the history ([this.get], the private one).  For a number
    [n], [n || 0] is [n]. *)
Definition get_ (reportID : Z) : js (deferred (option ref)) :=
  cached <- cache_get reportID ;;
  cachedHistory <- readAt cached ;;
  match cachedHistory with
  | [] =>
      d <- fetchAll reportID ;;
      done d (fun reportHistory => ret (Resolved (Some reportHistory)))
  | firstHistoryItem :: _ =>
      d <- API_Report_GetHistory
             (Request reportID (Some (sequenceNumber firstHistoryItem))) ;;
      done d (fun recentHistory =>
        mergeItems reportID recentHistory >>
        now_cached <- cache_get reportID ;;
        ret (Resolved now_cached))
  end.

(** Gets the history from the cache if it exists. Otherwise fully
    loads the history. *)
Definition getFromCacheFirst (reportID : Z) : js (deferred (option ref)) :=
  cached <- cache_get reportID ;;
  cachedHistory <- readAt cached ;;
  match cachedHistory with
  | [] =>
      d <- fetchAll reportID ;;
      done d (fun reportHistory => ret (Resolved (Some reportHistory)))
  | _ :: _ => ret (Resolved cached)
  end.

(** The public [get]: returns the history for a given report. *)
Definition get (reportID : Z) : js (deferred (list historyItem)) :=
  d <- get_ reportID ;;
  done d resolveFiltered.

(** The public [set]: sets a history item directly into the cache.
    Checks to see if we have the previous item first. *)
Definition set (reportID : Z) (reportAction : historyItem)
  : js (deferred (list historyItem)) :=
  d <- getFromCacheFirst reportID ;;
  done d (fun cachedHistory =>
    let sequenceNumber := sequenceNumber reportAction in
    found <- findWhereAt cachedHistory sequenceNumber ;;
    match found with
    | Some _ => resolveFiltered cachedHistory
    | None =>
        previous <- findWhereAt cachedHistory (sequenceNumber - 1) ;;
        match previous with
        | Some _ =>
            cached <- cache_get reportID ;;
            unshift cached reportAction >>
            cached' <- cache_get reportID ;;
            resolveFiltered cached'
        | None =>
            d' <- get_ reportID ;;
            done d' resolveFiltered
        end
    end).

End ReportHistoryStore.

(** * Specification *)

(** ** Sequences of history items *)

(** [newer x y]: [x] comes before [y] in a newest-first history. *)
Definition newer (x y : historyItem) : Prop :=
  sequenceNumber y < sequenceNumber x.

(** Sorted newest-first, by strictly decreasing sequence number. *)
Definition newest_first (l : list historyItem) : Prop :=
  StronglySorted newer l.

(** The sequence numbers of a history, in order. *)
Definition seqs (l : list historyItem) : list Z :=
  List.map sequenceNumber l.

(** No two items with the same sequence number. *)
Definition unique_seq (l : list historyItem) : Prop :=
  NoDup (seqs l).

(** How many items of [l] carry the sequence number [n]. *)
Definition count_seq (n : Z) (l : list historyItem) : nat :=
  length (List.filter (fun item => sequenceNumber item =? n) l).

(** [item]'s sequence number is not yet in [l]. *)
Definition absent (l : list historyItem) (item : historyItem) : bool :=
  match findWhere l (sequenceNumber item) with
  | Some _ => false
  | None => true
  end.

(** One step of the reduction in [mergeItems], on lists. *)
Definition mergeStep (prev : list historyItem) (curr : historyItem) : list historyItem :=
  if absent prev curr then curr :: prev else prev.

(** What [mergeItems] computes from the delivered batch [D] and the
    cached history [E]: the reduction runs over [D] reversed. *)
Definition merged (D E : list historyItem) : list historyItem :=
  fold_left mergeStep (rev D) E.

(** ** States the methods lead to *)

(** The state after the API has resolved a full fetch with [l] and
    [fetchAll] has made the new array the cache of the report. *)
Definition fetched (s : state) (reportID : Z) (l : list historyItem) : state :=
  State (heap s ++ [l]) (<[reportID := length (heap s)]> (cache s))
        (calls s ++ [Request reportID None]).

(** The state after a request has been made that the API rejects. *)
Definition logged (s : state) (parameters : request) : state :=
  State (heap s) (cache s) (calls s ++ [parameters]).

(** The state after the API has resolved an incremental fetch with
    [D] and [mergeItems] has merged it into the array [c] that holds
    [E]. *)
Definition polled (s : state) (parameters : request) (c : ref)
    (D E : list historyItem) : state :=
  State (<[c := merged D E]> (heap s ++ [rev D])) (cache s)
        (calls s ++ [parameters]).

(** ** What the public methods do *)

(** The outcomes of the public [get] on the state [s]: the state it
    leaves and what the caller's promise holds. *)
Inductive get_does (API : list request -> request -> response) (reportID : Z)
    (s : state) : state -> result (deferred (list historyItem)) -> Prop :=
  | get_full l :
      cachedHistory s reportID = [] ->
      API (calls s) (Request reportID None) = Done l ->
      get_does API reportID s
        (fetched s reportID l) (Val (Resolved (filterHiddenActions l)))
  | get_full_rejected :
      cachedHistory s reportID = [] ->
      API (calls s) (Request reportID None) = Fail ->
      get_does API reportID s
        (logged s (Request reportID None)) (Val Pending)
  | get_poll c first rest D :
      cache s !! reportID = Some c ->
      heap s !! c = Some (first :: rest) ->
      API (calls s) (Request reportID (Some (sequenceNumber first))) = Done D ->
      get_does API reportID s
        (polled s (Request reportID (Some (sequenceNumber first))) c D (first :: rest))
        (Val (Resolved (filterHiddenActions (merged D (first :: rest)))))
  | get_poll_rejected c first rest :
      cache s !! reportID = Some c ->
      heap s !! c = Some (first :: rest) ->
      API (calls s) (Request reportID (Some (sequenceNumber first))) = Fail ->
      get_does API reportID s
        (logged s (Request reportID (Some (sequenceNumber first)))) (Val Pending).

(** The outcomes of the public [set]. *)
Inductive set_does (API : list request -> request -> response) (reportID : Z)
    (reportAction : historyItem)
  : state -> state -> result (deferred (list historyItem)) -> Prop :=
  | set_present_ s c E :
      cache s !! reportID = Some c -> heap s !! c = Some E ->
      sequenceNumber reportAction ∈ seqs E ->
      set_does API reportID reportAction s
        s (Val (Resolved (filterHiddenActions E)))
  | set_previous_ s c E :
      cache s !! reportID = Some c -> heap s !! c = Some E ->
      sequenceNumber reportAction ∉ seqs E ->
      sequenceNumber reportAction - 1 ∈ seqs E ->
      set_does API reportID reportAction s
        (State (<[c := reportAction :: E]> (heap s)) (cache s) (calls s))
        (Val (Resolved (filterHiddenActions (reportAction :: E))))
  | set_gap_ s x l s' r :
      cachedHistory s reportID = x :: l ->
      sequenceNumber reportAction ∉ seqs (x :: l) ->
      sequenceNumber reportAction - 1 ∉ seqs (x :: l) ->
      get_does API reportID s s' r ->
      set_does API reportID reportAction s s' r
  | set_rejected_ s :
      cachedHistory s reportID = [] ->
      API (calls s) (Request reportID None) = Fail ->
      set_does API reportID reportAction s
        (logged s (Request reportID None)) (Val Pending)
  | set_fetched_empty_ s s' r :
      cachedHistory s reportID = [] ->
      API (calls s) (Request reportID None) = Done [] ->
      get_does API reportID (fetched s reportID []) s' r ->
      set_does API reportID reportAction s s' r
  | set_fetched_ s x l s' r :
      cachedHistory s reportID = [] ->
      API (calls s) (Request reportID None) = Done (x :: l) ->
      set_does API reportID reportAction (fetched s reportID (x :: l)) s' r ->
      set_does API reportID reportAction s s' r.

(** ** Hidden items and the cache invariant *)

(** An item callers must never see: its action is one of the hidden
    actions, or starts with CC. *)
Definition hidden (x : historyItem) : Prop :=
  actionName x ∈ HIDDEN_ACTIONS \/ String.prefix "CC" (actionName x) = true.

(** Every cached array has been allocated. *)
Definition allocated (s : state) : Prop :=
  forall reportID a, cache s !! reportID = Some a -> (a < length (heap s))%nat.

(** Every cached history is sorted newest-first by strictly decreasing
    sequence number (so no sequence number is cached twice). *)
Definition cache_invariant (s : state) : Prop :=
  allocated s /\ forall reportID, newest_first (cachedHistory s reportID).

(** ** Worked data *)

(** A visible item with sequence number [n]. *)
Definition item (n : Z) : historyItem := HistoryItem n "ADDCOMMENT" "".

(** Report 7 has [5, 4] cached in array 0; array 1 is a batch with the
    items 8, 7, 6, newest first. *)
Definition store_newest_first : state :=
  State [[item 5; item 4]; [item 8; item 7; item 6]] {[ 7 := 0%nat ]} [].

(** The same, the batch delivered oldest first. *)
Definition store_oldest_first : state :=
  State [[item 5; item 4]; [item 6; item 7; item 8]] {[ 7 := 0%nat ]} [].

(** Nothing is cached; array 0 is a batch of one item. *)
Definition store_no_cache : state :=
  State [[item 6]] ∅ [].

(** Report 7 has [5, 4] cached, no batch is around. *)
Definition store_5_4 : state :=
  State [[item 5; item 4]] {[ 7 := 0%nat ]} [].

(** Report 7 has two hidden items and a visible one cached. *)
Definition store_hidden : state :=
  State [[HistoryItem 5 "CCFOO" ""; HistoryItem 4 "BILLABLEDELEGATE" ""; item 3]]
        {[ 7 := 0%nat ]} [].

(** Nothing was ever loaded. *)
Definition store_new : state := State [] ∅ [].

(** An API in front of the history [log] of a report that honors its
    contract (asked with an offset, it answers with exactly the items
    of a larger sequence number) and delivers newest first. *)
Definition api_newest_first (log : list historyItem)
    (_ : list request) (parameters : request) : response :=
  match offset parameters with
  | None => Done log
  | Some n => Done (List.filter (fun x => n <? sequenceNumber x) log)
  end.


(** An API that fails every request. *)
Definition api_rejecting (_ : list request) (_ : request) : response := Fail.

Definition log_8_to_4 : list historyItem :=
  [item 8; item 7; item 6; item 5; item 4].

Ltac solve_newest_first :=
  unfold newest_first; repeat constructor; unfold newer; simpl; lia.

(** Report 7 has [5, 4] cached in array 0; array 1 is a batch that
    overlaps with the cache: 4, 5, 6, oldest first. *)
Definition store_overlap : state :=
  State [[item 5; item 4]; [item 4; item 5; item 6]] {[ 7 := 0%nat ]} [].

(** The item 5 with another message than the cached one. *)
Definition item_5_edited : historyItem := HistoryItem 5 "ADDCOMMENT" "edited".

(** A hidden item that follows the cached item 5. *)
Definition item_6_hidden : historyItem := HistoryItem 6 "CCFOO" "".

(** ** Requests and safe integers *)

(** [Number.isSafeInteger]: the integers on which the arithmetic of
    the code, done in doubles, is exact.  For such an [n] the code's
    [n - 1] is the integer [n - 1]. *)
Definition safe_integer (n : Z) : Prop :=
  - (2 ^ 53 - 1) <= n <= 2 ^ 53 - 1.

(** The request [this.get] makes in the state [s]: for the whole
    history when nothing is cached, else from the first cached item
    on.  The first request of [set], when it makes one, is the same. *)
Definition next_request (s : state) (reportID : Z) : request :=
  Request reportID
    (match cachedHistory s reportID with
     | [] => None
     | firstHistoryItem :: _ => Some (sequenceNumber firstHistoryItem)
     end).

(** In the state [s], [set] will find the sequence number [n] cached,
    or the one before it, or the API answers [set]'s request with a
    history that holds [n]. *)
Definition caches_directly (API : list request -> request -> response)
    (s : state) (reportID : Z) (n : Z) : Prop :=
  n ∈ seqs (cachedHistory s reportID) \/
  n - 1 ∈ seqs (cachedHistory s reportID) \/
  exists D, API (calls s) (next_request s reportID) = Done D /\ n ∈ seqs D.

(** [set] will leave [n] cached: directly, or, when nothing is cached,
    after the full fetch it starts with. *)
Definition set_will_cache (API : list request -> request -> response)
    (s : state) (reportID : Z) (n : Z) : Prop :=
  caches_directly API s reportID n \/
  (cachedHistory s reportID = [] /\
   exists R, API (calls s) (Request reportID None) = Done R /\
             caches_directly API (fetched s reportID R) reportID n).

(** An API that resolves the first request with [5, 4] and fails every
    later one. *)
Definition api_once (log : list request) (_ : request) : response :=
  match log with
  | [] => Done [item 5; item 4]
  | _ :: _ => Fail
  end.

(** * Proofs *)

(** ** Finding and merging, on lists *)

Lemma findWhere_None l n :
  findWhere l n = None <-> n ∉ seqs l.
Proof.
  unfold findWhere, seqs. induction l as [|x l IH]; simpl.
  - split; [intros _; apply not_elem_of_nil | done].
  - rewrite not_elem_of_cons. destruct (Z.eqb_spec (sequenceNumber x) n) as [->|Hne].
    + split; [done | intros [? _]; done].
    + rewrite IH. split; [intros ?; split; [congruence | done] | intros [_ ?]; done].
Qed.

Lemma findWhere_Some l n :
  is_Some (findWhere l n) <-> n ∈ seqs l.
Proof.
  destruct (findWhere l n) eqn:E.
  - split; [intros _ | eauto].
    destruct (decide (n ∈ seqs l)) as [|Hn]; [done |].
    apply findWhere_None in Hn. congruence.
  - apply findWhere_None in E. split; [intros [? ?]; done | done].
Qed.

Lemma absent_true l x : absent l x = true <-> sequenceNumber x ∉ seqs l.
Proof.
  unfold absent. rewrite <- findWhere_None.
  destruct (findWhere l (sequenceNumber x)); split; congruence.
Qed.

Lemma absent_false l x : absent l x = false <-> sequenceNumber x ∈ seqs l.
Proof.
  unfold absent. rewrite <- findWhere_Some.
  destruct (findWhere l (sequenceNumber x)); split; try done; eauto.
Qed.

Lemma elem_of_seqs n l :
  n ∈ seqs l <-> exists x, x ∈ l /\ sequenceNumber x = n.
Proof.
  unfold seqs. rewrite list_elem_of_In, in_map_iff.
  split; intros (x & H1 & H2); exists x; rewrite ?list_elem_of_In in *; done.
Qed.

Lemma seqs_app l1 l2 : seqs (l1 ++ l2) = seqs l1 ++ seqs l2.
Proof. apply List.map_app. Qed.

Lemma merged_nil E : merged [] E = E.
Proof. done. Qed.

Lemma merged_cons x D E : merged (x :: D) E = mergeStep (merged D E) x.
Proof. unfold merged. simpl. by rewrite fold_left_app. Qed.

Lemma elem_of_filter_bool (f : historyItem -> bool) x l :
  x ∈ List.filter f l <-> x ∈ l /\ f x = true.
Proof. rewrite !list_elem_of_In. apply filter_In. Qed.

(** Whatever the order of delivery, merging keeps the cached history as
    a suffix and never adds a sequence number twice. *)
Lemma merged_suffix D E : exists N, merged D E = N ++ E.
Proof.
  induction D as [|x D [N IH]].
  - by exists [].
  - rewrite merged_cons, IH. unfold mergeStep.
    destruct (absent (N ++ E) x); [by exists (x :: N) | by exists N].
Qed.

Lemma mergeStep_unique prev curr :
  unique_seq prev -> unique_seq (mergeStep prev curr).
Proof.
  unfold mergeStep, unique_seq. intros H.
  destruct (absent prev curr) eqn:Ha; [| done].
  simpl. apply NoDup_cons. split; [by apply absent_true | done].
Qed.

Lemma merged_unique D E : unique_seq E -> unique_seq (merged D E).
Proof.
  intros H. induction D as [|x D IH]; [done |].
  rewrite merged_cons. by apply mergeStep_unique.
Qed.

Lemma merged_elem_of D E x : x ∈ E -> x ∈ merged D E.
Proof.
  intros H. destruct (merged_suffix D E) as [N ->].
  apply elem_of_app. by right.
Qed.

Lemma merged_seqs D E n :
  n ∈ seqs (merged D E) <-> n ∈ seqs D \/ n ∈ seqs E.
Proof.
  revert n. induction D as [|x D IH]; intros n.
  - rewrite merged_nil. unfold seqs at 2. simpl. rewrite elem_of_nil. tauto.
  - rewrite merged_cons. unfold mergeStep.
    destruct (absent (merged D E) x) eqn:Ha.
    + unfold seqs in *. simpl. rewrite !elem_of_cons, IH. tauto.
    + apply absent_false in Ha. unfold seqs in *. simpl.
      rewrite elem_of_cons, IH. apply IH in Ha. split; [tauto |].
      intros [[-> | ?] | ?]; tauto.
Qed.

(** A batch without repeated sequence numbers is merged by putting its
    items that are not yet cached, in the order of delivery, in front of
    the cached history. *)
Lemma merged_filter D E :
  unique_seq D -> merged D E = List.filter (absent E) D ++ E.
Proof.
  unfold unique_seq. induction D as [|x D IH]; [done |].
  simpl. rewrite NoDup_cons. intros [Hx HD].
  rewrite merged_cons, IH by done. unfold mergeStep.
  destruct (absent E x) eqn:HE.
  - assert (absent (List.filter (absent E) D ++ E) x = true) as ->; [| done].
    apply absent_true. rewrite seqs_app, elem_of_app. intros [H | H].
    + apply elem_of_seqs in H as (y & Hy & Heq).
      apply elem_of_filter_bool in Hy as [Hy _].
      apply Hx. apply elem_of_seqs. eauto.
    + by apply absent_true in HE.
  - assert (absent (List.filter (absent E) D ++ E) x = false) as ->; [| done].
    apply absent_false. rewrite seqs_app, elem_of_app. right.
    by apply absent_false.
Qed.

Lemma newest_first_unique l : newest_first l -> unique_seq l.
Proof.
  unfold newest_first, unique_seq. induction l as [|x l IH]; simpl.
  - intros _. apply NoDup_nil_2.
  - rewrite StronglySorted_cons, NoDup_cons. intros [Hx Hl]. split; [| auto].
    intros Hin. apply elem_of_seqs in Hin as (y & Hy & Heq).
    rewrite Forall_forall in Hx. specialize (Hx y Hy). unfold newer in Hx. lia.
Qed.

Lemma newest_first_filter f l :
  newest_first l -> newest_first (List.filter f l).
Proof.
  unfold newest_first. induction l as [|x l IH]; simpl; [done |].
  rewrite StronglySorted_cons. intros [Hx Hl].
  destruct (f x); [| auto].
  apply StronglySorted_cons. split; [| auto].
  rewrite Forall_forall in *. intros y Hy.
  apply elem_of_filter_bool in Hy as [Hy _]. auto.
Qed.

(** The head of a newest-first history carries its largest sequence
    number. *)
Lemma newest_first_head x l :
  newest_first (x :: l) -> Forall (fun y => sequenceNumber y <= sequenceNumber x) (x :: l).
Proof.
  unfold newest_first. rewrite StronglySorted_cons. intros [Hx _].
  constructor; [lia |].
  eapply Forall_impl; [exact Hx |]. unfold newer. intros; simpl in *; lia.
Qed.

Lemma newest_first_app D E :
  newest_first D -> newest_first E ->
  (forall x y, x ∈ D -> y ∈ E -> sequenceNumber y < sequenceNumber x) ->
  newest_first (D ++ E).
Proof.
  unfold newest_first. intros HD HE H.
  apply StronglySorted_app. split_and!; auto.
Qed.

Lemma count_seq_unique n l :
  unique_seq l -> n ∈ seqs l -> count_seq n l = 1%nat.
Proof.
  unfold unique_seq, count_seq. induction l as [|x l IH]; simpl.
  - intros _ H. by apply elem_of_nil in H.
  - rewrite NoDup_cons, elem_of_cons. intros [Hx Hl] Hin.
    destruct (Z.eqb_spec (sequenceNumber x) n) as [<- | Hne].
    + simpl. f_equal. apply length_zero_iff_nil.
      destruct (List.filter _ l) as [|y ?] eqn:Hf; [done |].
      assert (y ∈ List.filter (fun item => sequenceNumber item =? sequenceNumber x) l)
        as Hy by (rewrite Hf; left).
      apply elem_of_filter_bool in Hy as [Hy Hs].
      apply Z.eqb_eq in Hs. exfalso. apply Hx. apply elem_of_seqs. eauto.
    + destruct Hin as [-> | Hin]; [done | auto].
Qed.

(** ** [mergeItems] on the heap *)

Lemma state_eta s : State (heap s) (cache s) (calls s) = s.
Proof. by destruct s. Qed.

Lemma items_lookup s a l : heap s !! a = Some l -> items s a = l.
Proof. unfold items. by intros ->. Qed.

Lemma items_nonempty s a x l : items s a = x :: l -> heap s !! a = Some (x :: l).
Proof. unfold items. destruct (heap s !! a); simpl; congruence. Qed.

Lemma items_insert_eq h c k a l :
  (a < length h)%nat -> items (State (<[a := l]> h) c k) a = l.
Proof. intros H. apply items_lookup. simpl. by apply list_lookup_insert_eq. Qed.

(** The callback of the reduction, case by case. *)
Lemma mergeIteratee_found s c curr item :
  findWhere (items s c) (sequenceNumber curr) = Some item ->
  mergeIteratee (Some c) (Some curr) s = (s, Val (Some c)).
Proof.
  intros H. unfold mergeIteratee, findWhereAt, bind, read, ret. by rewrite H.
Qed.

Lemma mergeIteratee_absent s c curr :
  findWhere (items s c) (sequenceNumber curr) = None ->
  mergeIteratee (Some c) (Some curr) s =
    (State (<[c := curr :: items s c]> (heap s)) (cache s) (calls s), Val (Some c)).
Proof.
  intros H. unfold mergeIteratee, findWhereAt, unshift, bind, read, write, ret.
  by rewrite H.
Qed.

Lemma mergeIteratee_undefined s curr :
  mergeIteratee None (Some curr) s = (s, TypeError).
Proof. done. Qed.

Lemma reduce_from_S {M} d (iteratee : M -> option historyItem -> js M) memo i n s :
  reduce_from d iteratee memo i (S n) s =
    match iteratee memo (items s d !! i) s with
    | (s', Val memo') => reduce_from d iteratee memo' (S i) n s'
    | (s', TypeError) => (s', TypeError)
    end.
Proof. done. Qed.

(** [mergeItems], one step unfolded. *)
Lemma mergeItems_unfold reportID d s :
  mergeItems reportID d s =
    match items s d with
    | [] => (s, Val tt)
    | _ :: _ =>
        let s1 := State (<[d := rev (items s d)]> (heap s)) (cache s) (calls s) in
        match reduce_from d mergeIteratee (cache s !! reportID) 0%nat
                (length (items s1 d)) s1 with
        | (s2, Val merged) => cache_set reportID merged s2
        | (s2, TypeError) => (s2, TypeError)
        end
    end.
Proof.
  unfold mergeItems, bind at 1. unfold read at 1.
  destruct (items s d) eqn:E; [done |].
  cbn [length Nat.eqb]. unfold reverse, reduce, bind, read, write, cache_get.
  by rewrite E.
Qed.

(** The reduction when the cached array is not the batch itself: only
    the cached array changes, and it ends as the fold of [mergeStep]
    over the rest of the batch. *)
Lemma reduce_from_merge n : forall i s c d R P,
  c <> d -> heap s !! d = Some R -> heap s !! c = Some P ->
  (i + n = length R)%nat ->
  reduce_from d mergeIteratee (Some c) i n s =
    (State (<[c := fold_left mergeStep (drop i R) P]> (heap s)) (cache s) (calls s),
     Val (Some c)).
Proof.
  induction n as [|n IH]; intros i s c d R P Hcd Hd Hc Hlen.
  - simpl. unfold ret. rewrite drop_ge by lia. simpl.
    rewrite list_insert_id by done. by rewrite state_eta.
  - destruct (lookup_lt_is_Some_2 R i) as [curr Hcurr]; [lia |].
    rewrite (drop_S _ _ _ Hcurr), reduce_from_S.
    rewrite (items_lookup _ _ _ Hd), Hcurr. cbn [fold_left].
    unfold mergeStep at 2, absent.
    destruct (findWhere P (sequenceNumber curr)) eqn:Hf.
    + erewrite mergeIteratee_found by (rewrite (items_lookup _ _ _ Hc); done).
      apply IH; [done | done | done | lia].
    + rewrite mergeIteratee_absent by (rewrite (items_lookup _ _ _ Hc); done).
      rewrite (items_lookup _ _ _ Hc).
      assert (c < length (heap s))%nat as Hlt by (apply lookup_lt_is_Some; eauto).
      rewrite (IH (S i) _ c d R (curr :: P)); simpl; try done.
      * by rewrite list_insert_insert_eq.
      * by rewrite list_lookup_insert_ne.
      * by rewrite list_lookup_insert_eq.
      * lia.
Qed.

(** The reduction never touches the batch it runs over, whatever the
    starting value is: [undefined], another array, or the batch itself
    (then every item is found and nothing is added). *)
Lemma reduce_from_batch n : forall i s memo d R,
  heap s !! d = Some R -> (i + n <= length R)%nat ->
  let s' := fst (reduce_from d mergeIteratee memo i n s) in
  heap s' !! d = Some R /\ cache s' = cache s /\ calls s' = calls s.
Proof.
  induction n as [|n IH]; intros i s memo d R Hd Hlen; [done |].
  destruct (lookup_lt_is_Some_2 R i) as [curr Hcurr]; [lia |].
  rewrite reduce_from_S, (items_lookup _ _ _ Hd), Hcurr.
  destruct memo as [c |]; [| done].
  destruct (findWhere (items s c) (sequenceNumber curr)) eqn:Hf.
  - erewrite mergeIteratee_found by done. apply IH; [done | lia].
  - rewrite mergeIteratee_absent by done.
    destruct (decide (c = d)) as [-> | Hcd].
    + rewrite (items_lookup _ _ _ Hd) in Hf.
      apply findWhere_None in Hf. exfalso. apply Hf.
      apply elem_of_seqs. exists curr. split; [| done].
      by eapply list_elem_of_lookup_2.
    + specialize (IH (S i)
        (State (<[c := curr :: items s c]> (heap s)) (cache s) (calls s))
        (Some c) d R).
      simpl in IH. apply IH; [| lia].
      by rewrite list_lookup_insert_ne.
Qed.

(** [mergeItems] with an empty batch does nothing. *)
Lemma mergeItems_empty s reportID d :
  items s d = [] -> mergeItems reportID d s = (s, Val tt).
Proof. intros H. by rewrite mergeItems_unfold, H. Qed.

(** [mergeItems] of a non-empty batch [D] into the history [E] cached in
    another array: the batch is reversed in place, the cached array
    becomes [merged D E], and [this.cache] still points to it. *)
Lemma mergeItems_merged s reportID c d D E :
  cache s !! reportID = Some c -> c <> d ->
  heap s !! c = Some E -> heap s !! d = Some D -> D <> [] ->
  mergeItems reportID d s =
    (State (<[c := merged D E]> (<[d := rev D]> (heap s))) (cache s) (calls s),
     Val tt).
Proof.
  intros Hc Hcd HE HD Hne.
  assert (d < length (heap s))%nat as Hlt by (apply lookup_lt_is_Some; eauto).
  rewrite mergeItems_unfold, (items_lookup _ _ _ HD), Hc.
  destruct D as [|x D'] eqn:ED; [done |]. rewrite <- ED in *. cbn zeta.
  rewrite items_insert_eq by done.
  rewrite reduce_from_merge with (R := rev D) (P := E); cbn [heap cache calls]; try done.
  - unfold cache_set. cbn [heap cache calls]. rewrite insert_id by done.
    by rewrite drop_0.
  - by rewrite list_lookup_insert_eq.
  - by rewrite list_lookup_insert_ne.
Qed.

(** [mergeItems] of a non-empty batch when nothing is cached for the
    report: the batch is reversed, then [unshift] is called on
    [undefined]. *)
Lemma mergeItems_undefined s reportID d D :
  cache s !! reportID = None -> heap s !! d = Some D -> D <> [] ->
  mergeItems reportID d s =
    (State (<[d := rev D]> (heap s)) (cache s) (calls s), TypeError).
Proof.
  intros Hc HD Hne.
  assert (d < length (heap s))%nat as Hlt by (apply lookup_lt_is_Some; eauto).
  rewrite mergeItems_unfold, (items_lookup _ _ _ HD), Hc.
  destruct D as [|x D'] eqn:ED; [done |]. rewrite <- ED in *. cbn zeta.
  rewrite items_insert_eq by done.
  assert (exists y R, rev D = y :: R) as (y & R & HR).
  { destruct (rev D) as [|y R] eqn:ER; [| eauto].
    apply (f_equal (@length _)) in ER. rewrite length_rev in ER. subst D. done. }
  rewrite HR. cbn [length]. rewrite reduce_from_S.
  rewrite items_insert_eq by done. done.
Qed.

(** ** The methods, case by case *)

Lemma bind_Val {A B} (m : js A) (k : A -> js B) s s' a :
  m s = (s', Val a) -> bind m k s = k a s'.
Proof. intros H. unfold bind. by rewrite H. Qed.

Lemma readAt_cache s reportID :
  readAt (cache s !! reportID) s = (s, Val (cachedHistory s reportID)).
Proof. unfold readAt, cachedHistory. by destruct (cache s !! reportID). Qed.

Lemma cachedHistory_cons s reportID x l :
  cachedHistory s reportID = x :: l ->
  exists c, cache s !! reportID = Some c /\ heap s !! c = Some (x :: l).
Proof.
  unfold cachedHistory. destruct (cache s !! reportID) as [c |]; [| done].
  intros H. exists c. split; [done |]. by apply items_nonempty.
Qed.

Lemma cachedHistory_lookup s reportID c l :
  cache s !! reportID = Some c -> heap s !! c = Some l ->
  cachedHistory s reportID = l.
Proof. unfold cachedHistory. intros -> H. by apply items_lookup. Qed.

Lemma cachedHistory_fetched s reportID l :
  cachedHistory (fetched s reportID l) reportID = l.
Proof.
  apply cachedHistory_lookup with (c := length (heap s)); simpl.
  - apply lookup_insert_eq.
  - by rewrite lookup_app_r, Nat.sub_diag.
Qed.

Lemma cachedHistory_polled s parameters reportID c D E :
  cache s !! reportID = Some c -> heap s !! c = Some E ->
  cachedHistory (polled s parameters c D E) reportID = merged D E.
Proof.
  intros Hc HE. apply cachedHistory_lookup with (c := c); simpl; [done |].
  apply list_lookup_insert_eq. rewrite length_app.
  apply lookup_lt_Some in HE. lia.
Qed.

Section Cases.

Variable API : list request -> request -> response.

Lemma API_Done s parameters l :
  API (calls s) parameters = Done l ->
  API_Report_GetHistory API parameters s =
    (State (heap s ++ [l]) (cache s) (calls s ++ [parameters]),
     Val (Resolved (length (heap s)))).
Proof. intros H. unfold API_Report_GetHistory. by rewrite H. Qed.

Lemma API_Fail s parameters :
  API (calls s) parameters = Fail ->
  API_Report_GetHistory API parameters s = (logged s parameters, Val Rejected).
Proof. intros H. unfold API_Report_GetHistory. by rewrite H. Qed.

Lemma fetchAll_Done s reportID l :
  API (calls s) (Request reportID None) = Done l ->
  fetchAll API reportID s =
    (fetched s reportID l, Val (Resolved (length (heap s)))).
Proof. intros H. unfold fetchAll, bind. by rewrite (API_Done _ _ _ H). Qed.

Lemma fetchAll_Fail s reportID :
  API (calls s) (Request reportID None) = Fail ->
  fetchAll API reportID s = (logged s (Request reportID None), Val Rejected).
Proof. intros H. unfold fetchAll, bind. by rewrite (API_Fail _ _ H). Qed.

(** [this.get] when nothing is cached: a full fetch. *)
Lemma get__empty s reportID :
  cachedHistory s reportID = [] ->
  get_ API reportID s =
    match API (calls s) (Request reportID None) with
    | Done l => (fetched s reportID l, Val (Resolved (Some (length (heap s)))))
    | Fail => (logged s (Request reportID None), Val Pending)
    end.
Proof.
  intros H. unfold get_, bind at 1. unfold cache_get at 1.
  unfold bind at 1. rewrite readAt_cache, H. unfold bind at 1.
  destruct (API (calls s) (Request reportID None)) as [l |] eqn:HA.
  - by rewrite (fetchAll_Done _ _ _ HA).
  - by rewrite (fetchAll_Fail _ _ HA).
Qed.

(** [this.get] when something is cached: an incremental fetch from
    the first cached item on, merged into the cached array. *)
Lemma get__cached s reportID c first rest :
  cache s !! reportID = Some c -> heap s !! c = Some (first :: rest) ->
  let parameters := Request reportID (Some (sequenceNumber first)) in
  get_ API reportID s =
    match API (calls s) parameters with
    | Done D => (polled s parameters c D (first :: rest), Val (Resolved (Some c)))
    | Fail => (logged s parameters, Val Pending)
    end.
Proof.
  intros Hc HE parameters.
  assert (c < length (heap s))%nat as Hlt by (apply lookup_lt_is_Some; eauto).
  unfold get_, bind at 1. unfold cache_get at 1.
  unfold bind at 1.
  rewrite readAt_cache, (cachedHistory_lookup _ _ _ _ Hc HE). unfold bind at 1.
  fold parameters.
  destruct (API (calls s) parameters) as [D |] eqn:HA.
  - rewrite (API_Done _ _ _ HA). unfold done, bind at 1.
    destruct D as [|x D'] eqn:ED.
    + rewrite mergeItems_empty.
      2:{ apply items_lookup. simpl. by rewrite lookup_app_r, Nat.sub_diag. }
      unfold bind, cache_get, ret. simpl. rewrite Hc.
      unfold polled. rewrite merged_nil. simpl.
      rewrite list_insert_id; [done |]. by apply lookup_app_l_Some.
    + rewrite <- ED.
      rewrite mergeItems_merged with (c := c) (D := D) (E := first :: rest); simpl.
      * unfold bind, cache_get, ret. simpl. rewrite Hc. unfold polled.
        rewrite insert_app_r_alt, Nat.sub_diag by done. done.
      * done.
      * lia.
      * by apply lookup_app_l_Some.
      * by rewrite lookup_app_r, Nat.sub_diag.
      * by subst D.
  - by rewrite (API_Fail _ _ HA).
Qed.

Lemma getFromCacheFirst_empty s reportID :
  cachedHistory s reportID = [] ->
  getFromCacheFirst API reportID s =
    match API (calls s) (Request reportID None) with
    | Done l => (fetched s reportID l, Val (Resolved (Some (length (heap s)))))
    | Fail => (logged s (Request reportID None), Val Pending)
    end.
Proof.
  intros H. unfold getFromCacheFirst, bind at 1. unfold cache_get at 1.
  unfold bind at 1. rewrite readAt_cache, H. unfold bind at 1.
  destruct (API (calls s) (Request reportID None)) as [l |] eqn:HA.
  - by rewrite (fetchAll_Done _ _ _ HA).
  - by rewrite (fetchAll_Fail _ _ HA).
Qed.

Lemma getFromCacheFirst_cached s reportID x l :
  cachedHistory s reportID = x :: l ->
  getFromCacheFirst API reportID s = (s, Val (Resolved (cache s !! reportID))).
Proof.
  intros H. unfold getFromCacheFirst, bind at 1. unfold cache_get at 1.
  unfold bind at 1. by rewrite readAt_cache, H.
Qed.

Lemma resolveFiltered_Some s a :
  resolveFiltered (Some a) s = (s, Val (Resolved (filterHiddenActions (items s a)))).
Proof. done. Qed.

(** The public [get] when nothing is cached. *)
Lemma get_empty s reportID :
  cachedHistory s reportID = [] ->
  get API reportID s =
    match API (calls s) (Request reportID None) with
    | Done l => (fetched s reportID l, Val (Resolved (filterHiddenActions l)))
    | Fail => (logged s (Request reportID None), Val Pending)
    end.
Proof.
  intros H. unfold get, bind. rewrite (get__empty _ _ H).
  destruct (API (calls s) (Request reportID None)) as [l |]; [| done].
  unfold done. rewrite resolveFiltered_Some. do 4 f_equal.
  apply items_lookup. simpl. by rewrite lookup_app_r, Nat.sub_diag.
Qed.

(** The public [get] when something is cached. *)
Lemma get_cached s reportID c first rest :
  cache s !! reportID = Some c -> heap s !! c = Some (first :: rest) ->
  let parameters := Request reportID (Some (sequenceNumber first)) in
  get API reportID s =
    match API (calls s) parameters with
    | Done D =>
        (polled s parameters c D (first :: rest),
         Val (Resolved (filterHiddenActions (merged D (first :: rest)))))
    | Fail => (logged s parameters, Val Pending)
    end.
Proof.
  intros Hc HE parameters. unfold get, bind. rewrite (get__cached _ _ _ _ _ Hc HE).
  fold parameters.
  destruct (API (calls s) parameters) as [D |]; [| done].
  unfold done. rewrite resolveFiltered_Some. do 4 f_equal.
  apply items_lookup. simpl. apply list_lookup_insert_eq.
  rewrite length_app. apply lookup_lt_Some in HE. lia.
Qed.

(** [set] of an item whose sequence number is cached already. *)
Lemma set_present s reportID reportAction c E item :
  cache s !! reportID = Some c -> heap s !! c = Some E ->
  findWhere E (sequenceNumber reportAction) = Some item ->
  set API reportID reportAction s = (s, Val (Resolved (filterHiddenActions E))).
Proof.
  intros Hc HE Hf.
  destruct E as [|x l] eqn:EE; [done |]. rewrite <- EE in *.
  assert (cachedHistory s reportID = x :: l) as Hch
    by (rewrite <- EE; by apply cachedHistory_lookup with (c := c)).
  unfold set, bind at 1. rewrite (getFromCacheFirst_cached _ _ _ _ Hch), Hc.
  unfold done, findWhereAt, bind, read, ret.
  rewrite (items_lookup _ _ _ HE), Hf. rewrite resolveFiltered_Some.
  by rewrite (items_lookup _ _ _ HE).
Qed.

(** [set] of the item that follows a cached one. *)
Lemma set_previous s reportID reportAction c E item :
  cache s !! reportID = Some c -> heap s !! c = Some E ->
  findWhere E (sequenceNumber reportAction) = None ->
  findWhere E (sequenceNumber reportAction - 1) = Some item ->
  set API reportID reportAction s =
    (State (<[c := reportAction :: E]> (heap s)) (cache s) (calls s),
     Val (Resolved (filterHiddenActions (reportAction :: E)))).
Proof.
  intros Hc HE Hf Hp.
  assert (c < length (heap s))%nat as Hlt by (apply lookup_lt_is_Some; eauto).
  destruct E as [|x l] eqn:EE; [done |]. rewrite <- EE in *.
  assert (cachedHistory s reportID = x :: l) as Hch
    by (rewrite <- EE; by apply cachedHistory_lookup with (c := c)).
  unfold set, bind at 1. rewrite (getFromCacheFirst_cached _ _ _ _ Hch), Hc.
  unfold done, findWhereAt, unshift, bind, read, write, ret, cache_get.
  rewrite (items_lookup _ _ _ HE), Hf. rewrite (items_lookup _ _ _ HE), Hp, Hc.
  rewrite (items_lookup _ _ _ HE). cbn [cache]. rewrite Hc.
  rewrite resolveFiltered_Some. by rewrite items_insert_eq.
Qed.

(** [set] of an item that neither is cached nor follows a cached one:
    the history is got again, as [get] does. *)
Lemma set_gap s reportID reportAction x l :
  cachedHistory s reportID = x :: l ->
  findWhere (x :: l) (sequenceNumber reportAction) = None ->
  findWhere (x :: l) (sequenceNumber reportAction - 1) = None ->
  set API reportID reportAction s = get API reportID s.
Proof.
  intros Hch Hf Hp.
  destruct (cachedHistory_cons _ _ _ _ Hch) as (c & Hc & HE).
  unfold set, bind at 1. rewrite (getFromCacheFirst_cached _ _ _ _ Hch), Hc.
  unfold done at 1. unfold findWhereAt, bind at 1. unfold bind at 1.
  unfold read at 1. rewrite (items_lookup _ _ _ HE). unfold ret at 1. rewrite Hf.
  unfold bind at 1. unfold bind at 1.
  unfold read at 1. rewrite (items_lookup _ _ _ HE). unfold ret at 1. by rewrite Hp.
Qed.

(** [set] when nothing is cached and the API rejects the full fetch. *)
Lemma set_empty_Fail s reportID reportAction :
  cachedHistory s reportID = [] ->
  API (calls s) (Request reportID None) = Fail ->
  set API reportID reportAction s = (logged s (Request reportID None), Val Pending).
Proof.
  intros Hch HA. unfold set, bind at 1.
  by rewrite (getFromCacheFirst_empty _ _ Hch), HA.
Qed.

(** [set] when nothing is cached and the full fetch resolves: with a
    non-empty history it goes on as [set] on the new cache does, with
    an empty one it gets the history once more. *)
Lemma set_empty_Done s reportID reportAction R :
  cachedHistory s reportID = [] ->
  API (calls s) (Request reportID None) = Done R ->
  set API reportID reportAction s =
    match R with
    | [] => get API reportID (fetched s reportID R)
    | _ :: _ => set API reportID reportAction (fetched s reportID R)
    end.
Proof.
  intros Hch HA. unfold set at 1. unfold bind at 1.
  rewrite (getFromCacheFirst_empty _ _ Hch), HA.
  pose proof (cachedHistory_fetched s reportID R) as HR.
  assert (items (fetched s reportID R) (length (heap s)) = R) as Hi.
  { apply items_lookup. simpl. by rewrite lookup_app_r, Nat.sub_diag. }
  destruct R as [|x l].
  - unfold done at 1. unfold findWhereAt, bind at 1. unfold bind at 1.
    unfold read at 1. rewrite Hi. unfold ret at 1. cbn [findWhere find].
    unfold bind at 1. unfold bind at 1.
    unfold read at 1. rewrite Hi. unfold ret at 1. cbn [findWhere find].
    done.
  - unfold set.
    rewrite (bind_Val _ _ _ _ _ (getFromCacheFirst_cached _ _ _ _ HR)).
    simpl. by rewrite lookup_insert_eq.
Qed.

End Cases.

(** ** The methods and their outcomes *)

(** [get] and [set] do what the relations say. *)
Lemma get_get_does API reportID s :
  get_does API reportID s (fst (get API reportID s)) (snd (get API reportID s)).
Proof.
  destruct (cachedHistory s reportID) as [|first rest] eqn:Hch.
  - rewrite get_empty by done.
    destruct (API (calls s) (Request reportID None)) eqn:HA; cbn [fst snd].
    + by apply get_full.
    + by apply get_full_rejected.
  - destruct (cachedHistory_cons _ _ _ _ Hch) as (c & Hc & HE).
    rewrite (get_cached _ _ _ _ _ _ Hc HE).
    destruct (API (calls s) _) eqn:HA; cbn [fst snd].
    + by eapply get_poll.
    + by eapply get_poll_rejected.
Qed.

Lemma set_set_does_cached API reportID reportAction s x l :
  cachedHistory s reportID = x :: l ->
  set_does API reportID reportAction s
    (fst (set API reportID reportAction s)) (snd (set API reportID reportAction s)).
Proof.
  intros Hch. destruct (cachedHistory_cons _ _ _ _ Hch) as (c & Hc & HE).
  destruct (findWhere (x :: l) (sequenceNumber reportAction)) eqn:Hf.
  - rewrite (set_present _ _ _ _ _ _ _ Hc HE Hf). cbn [fst snd].
    eapply set_present_; [done | done |]. apply findWhere_Some. eauto.
  - destruct (findWhere (x :: l) (sequenceNumber reportAction - 1)) eqn:Hp.
    + rewrite (set_previous _ _ _ _ _ _ _ Hc HE Hf Hp). cbn [fst snd].
      eapply set_previous_; [done | done | by apply findWhere_None |].
      apply findWhere_Some. eauto.
    + rewrite (set_gap _ _ _ _ _ _ Hch Hf Hp).
      eapply set_gap_; [done | by apply findWhere_None | by apply findWhere_None |].
      apply get_get_does.
Qed.

Lemma set_set_does API reportID reportAction s :
  set_does API reportID reportAction s
    (fst (set API reportID reportAction s)) (snd (set API reportID reportAction s)).
Proof.
  destruct (cachedHistory s reportID) as [|x l] eqn:Hch.
  - destruct (API (calls s) (Request reportID None)) as [R |] eqn:HA.
    + rewrite (set_empty_Done _ _ _ _ _ Hch HA). destruct R as [|y R].
      * apply set_fetched_empty_; [done | done |]. apply get_get_does.
      * eapply set_fetched_; [done | done |].
        eapply set_set_does_cached. apply cachedHistory_fetched.
    + rewrite (set_empty_Fail _ _ _ _ Hch HA). cbn [fst snd]. by apply set_rejected_.
  - by eapply set_set_does_cached.
Qed.

(** ** Merging *)

(** C10: a non-empty batch handed to [mergeItems] is reversed in place:
    after the call the array the caller passed holds its items in the
    opposite order.  This holds whatever is cached for the report, also
    when nothing is and the call throws, and when the batch is the
    cached array itself. *)
Theorem mergeItems_reverses_batch s reportID d D :
  heap s !! d = Some D -> D <> [] ->
  heap (fst (mergeItems reportID d s)) !! d = Some (rev D).
Proof.
  intros HD Hne.
  assert (d < length (heap s))%nat as Hlt by (apply lookup_lt_is_Some; eauto).
  rewrite mergeItems_unfold, (items_lookup _ _ _ HD).
  destruct D as [|x D'] eqn:ED; [done |]. rewrite <- ED in *. cbn zeta.
  rewrite items_insert_eq by done.
  set (s1 := State (<[d := rev D]> (heap s)) (cache s) (calls s)).
  destruct (reduce_from_batch (length (rev D)) 0 s1 (cache s !! reportID) d (rev D))
    as (Hh & _ & _).
  - simpl. by apply list_lookup_insert_eq.
  - simpl. lia.
  - destruct (reduce_from d mergeIteratee (cache s !! reportID) 0 (length (rev D)) s1)
      as [s2 [m |]]; simpl in *; done.
Qed.

Lemma mergeItems_reverses_batch_witness :
  heap (fst (mergeItems 7 1%nat store_oldest_first)) !! 1%nat
  = Some (rev [item 6; item 7; item 8]).
Proof.
  apply (mergeItems_reverses_batch store_oldest_first 7 1%nat [item 6; item 7; item 8]).
  - reflexivity.
  - discriminate.
Defined.

(** C1, as the code has it: whatever the order a batch without repeated
    sequence numbers is delivered in, [mergeItems] leaves in the cache
    the items of the batch that were not cached yet, in the order of
    delivery, followed by the history cached before, and no sequence
    number twice.  The result is sorted newest-first when the batch is
    delivered newest-first and its new items are newer than the cached
    ones; [mergeItems] does not sort. *)
Theorem mergeItems_delivery_order s reportID c d D E :
  cache s !! reportID = Some c -> c <> d ->
  heap s !! c = Some E -> heap s !! d = Some D ->
  newest_first E -> unique_seq D ->
  exists s',
    mergeItems reportID d s = (s', Val tt) /\
    cachedHistory s' reportID = List.filter (absent E) D ++ E /\
    unique_seq (cachedHistory s' reportID) /\
    (newest_first D ->
     (forall x y, x ∈ D -> absent E x = true -> y ∈ E ->
                  sequenceNumber y < sequenceNumber x) ->
     newest_first (cachedHistory s' reportID)).
Proof.
  intros Hc Hcd HE HD HsE HuD.
  assert (c < length (heap s))%nat as Hlt by (apply lookup_lt_is_Some; eauto).
  assert (exists s', mergeItems reportID d s = (s', Val tt) /\
                     cachedHistory s' reportID = merged D E) as (s' & Hm & Hch).
  { destruct D as [|x D'] eqn:ED.
    - exists s. split; [by apply mergeItems_empty, items_lookup |].
      by apply cachedHistory_lookup with (c := c).
    - rewrite <- ED in *. eexists. split.
      + apply mergeItems_merged with (c := c) (E := E); try done. by subst D.
      + apply cachedHistory_lookup with (c := c); simpl; [done |].
        apply list_lookup_insert_eq. by rewrite length_insert. }
  exists s'. rewrite Hch. split_and!; [done | by apply merged_filter | |].
  - by apply merged_unique, newest_first_unique.
  - intros HsD Hnew. rewrite merged_filter by done.
    apply newest_first_app; [by apply newest_first_filter | done |].
    intros x y Hx Hy. apply elem_of_filter_bool in Hx as [Hx Ha]. eauto.
Qed.

Lemma mergeItems_delivery_order_witness :
  exists s',
    mergeItems 7 1%nat store_newest_first = (s', Val tt) /\
    cachedHistory s' 7
    = List.filter (absent [item 5; item 4]) [item 8; item 7; item 6]
      ++ [item 5; item 4] /\
    unique_seq (cachedHistory s' 7) /\
    (newest_first [item 8; item 7; item 6] ->
     (forall x y, x ∈ [item 8; item 7; item 6] ->
                  absent [item 5; item 4] x = true -> y ∈ [item 5; item 4] ->
                  sequenceNumber y < sequenceNumber x) ->
     newest_first (cachedHistory s' 7)).
Proof.
  apply (mergeItems_delivery_order store_newest_first 7 0%nat 1%nat
           [item 8; item 7; item 6] [item 5; item 4]).
  - reflexivity.
  - discriminate.
  - reflexivity.
  - reflexivity.
  - solve_newest_first.
  - apply newest_first_unique. solve_newest_first.
Defined.

(** The items 8, 7, 6 delivered newest first into [5, 4] give
    [8, 7, 6, 5, 4]. *)
Example mergeItems_8_7_6 :
  cachedHistory (fst (mergeItems 7 1%nat store_newest_first)) 7
  = [item 8; item 7; item 6; item 5; item 4].
Proof. reflexivity. Qed.

(** C1 as stated fails: the items 6, 7, 8 delivered oldest first into
    the cache [5, 4] give [6, 7, 8, 5, 4], which is not [8, 7, 6, 5, 4]
    and is not sorted newest-first. *)
Lemma mergeItems_oldest_first_counterexample :
  newest_first [item 5; item 4] /\
  cachedHistory store_oldest_first 7 = [item 5; item 4] /\
  cachedHistory (fst (mergeItems 7 1%nat store_oldest_first)) 7
  = [item 6; item 7; item 8; item 5; item 4] /\
  cachedHistory (fst (mergeItems 7 1%nat store_oldest_first)) 7
  <> [item 8; item 7; item 6; item 5; item 4] /\
  ~ newest_first (cachedHistory (fst (mergeItems 7 1%nat store_oldest_first)) 7).
Proof.
  split_and!; [solve_newest_first | reflexivity | reflexivity | discriminate |].
  intros H. apply newest_first_head in H.
  apply Forall_cons in H as [_ H]. apply Forall_cons in H as [H _].
  vm_compute in H. by apply H.
Qed.

(** C7, as the code has it: [mergeItems] of a non-empty batch for a
    report with nothing cached throws a [TypeError] ([unshift] on
    [undefined]), after it reversed the batch; nothing gets cached for
    the report. *)
Theorem mergeItems_no_cache_throws s reportID d D :
  cache s !! reportID = None -> heap s !! d = Some D -> D <> [] ->
  snd (mergeItems reportID d s) = TypeError /\
  cache (fst (mergeItems reportID d s)) = cache s /\
  cache (fst (mergeItems reportID d s)) !! reportID = None.
Proof.
  intros Hc HD Hne. by rewrite (mergeItems_undefined _ _ _ _ Hc HD Hne).
Qed.

Lemma mergeItems_no_cache_throws_witness :
  snd (mergeItems 7 0%nat store_no_cache) = TypeError /\
  cache (fst (mergeItems 7 0%nat store_no_cache)) = cache store_no_cache /\
  cache (fst (mergeItems 7 0%nat store_no_cache)) !! 7 = None.
Proof.
  apply (mergeItems_no_cache_throws store_no_cache 7 0%nat [item 6]).
  - reflexivity.
  - reflexivity.
  - discriminate.
Defined.

(** C7 as stated fails: with nothing cached for report 7 and the batch
    [6], [mergeItems] does not return with an empty cache, it throws. *)
Lemma mergeItems_no_cache_counterexample :
  cache store_no_cache !! 7 = None /\
  mergeItems 7 0%nat store_no_cache = (store_no_cache, TypeError) /\
  snd (mergeItems 7 0%nat store_no_cache) <> Val tt.
Proof. split_and!; [reflexivity | reflexivity | discriminate]. Qed.

(** ** Fetching *)




(** With [5, 4] cached, [set] of the item 8 asks for the history from
    offset 5 on. *)
Example set_gap_offset_5 :
  calls (fst (set (api_newest_first log_8_to_4) 7 (item 8) store_5_4))
  = [Request 7 (Some 5)].
Proof. reflexivity. Qed.

(** C3: when the item before [reportAction] is cached and
    [reportAction]'s sequence number is not, [set] makes no request,
    puts [reportAction] in front of the cached history and resolves
    with the result, filtered. *)
Theorem set_fast_path API s reportID reportAction c E :
  cache s !! reportID = Some c -> heap s !! c = Some E ->
  sequenceNumber reportAction - 1 ∈ seqs E ->
  sequenceNumber reportAction ∉ seqs E ->
  let s' := fst (set API reportID reportAction s) in
  calls s' = calls s /\
  cachedHistory s' reportID = reportAction :: E /\
  snd (set API reportID reportAction s)
  = Val (Resolved (filterHiddenActions (reportAction :: E))).
Proof.
  intros Hc HE Hp Hf.
  apply findWhere_Some in Hp as [previous Hp]. apply findWhere_None in Hf.
  rewrite (set_previous _ _ _ _ _ _ _ Hc HE Hf Hp). cbn [fst snd calls].
  split_and!; [done | | done].
  apply cachedHistory_lookup with (c := c); cbn [heap cache]; [done |].
  apply list_lookup_insert_eq. by eapply lookup_lt_Some.
Qed.

Lemma set_fast_path_witness :
  let s' := fst (set api_rejecting 7 (item 6) store_5_4) in
  calls s' = calls store_5_4 /\
  cachedHistory s' 7 = item 6 :: [item 5; item 4] /\
  snd (set api_rejecting 7 (item 6) store_5_4)
  = Val (Resolved (filterHiddenActions (item 6 :: [item 5; item 4]))).
Proof.
  apply (set_fast_path api_rejecting store_5_4 7 (item 6) 0%nat [item 5; item 4]).
  - reflexivity.
  - reflexivity.
  - apply findWhere_Some. vm_compute. eauto.
  - apply findWhere_None. reflexivity.
Defined.

(** C6: with nothing cached for the report, [get] makes exactly one
    request, without offset; when the API resolves it, the history it
    resolved with is the cache of the report as it came, and the caller
    gets it filtered. *)
Theorem get_bootstrap API s reportID :
  cache s !! reportID = None ->
  calls (fst (get API reportID s)) = calls s ++ [Request reportID None] /\
  forall l, API (calls s) (Request reportID None) = Done l ->
    cachedHistory (fst (get API reportID s)) reportID = l /\
    snd (get API reportID s) = Val (Resolved (filterHiddenActions l)).
Proof.
  intros Hc.
  assert (cachedHistory s reportID = []) as Hch by (unfold cachedHistory; by rewrite Hc).
  rewrite (get_empty _ _ _ Hch).
  destruct (API (calls s) (Request reportID None)) as [R |]; cbn [fst snd].
  - split; [done |]. intros l [= <-]. split; [apply cachedHistory_fetched | done].
  - split; [done |]. intros l [=].
Qed.

Lemma get_bootstrap_witness :
  calls (fst (get (api_newest_first log_8_to_4) 7 store_new))
  = calls store_new ++ [Request 7 None] /\
  forall l, api_newest_first log_8_to_4 (calls store_new) (Request 7 None) = Done l ->
    cachedHistory (fst (get (api_newest_first log_8_to_4) 7 store_new)) 7 = l /\
    snd (get (api_newest_first log_8_to_4) 7 store_new)
    = Val (Resolved (filterHiddenActions l)).
Proof.
  apply (get_bootstrap (api_newest_first log_8_to_4) store_new 7).
  reflexivity.
Defined.

(** ** Filtering *)

Lemma contains_elem_of l x : contains l x = true <-> x ∈ l.
Proof.
  unfold contains. rewrite existsb_exists, list_elem_of_In.
  split.
  - intros (y & Hy & Heq). apply String.eqb_eq in Heq. by subst.
  - intros H. exists x. split; [done | apply String.eqb_refl].
Qed.

Lemma elem_of_filterHiddenActions x l :
  x ∈ filterHiddenActions l <-> x ∈ l /\ ~ hidden x.
Proof.
  unfold filterHiddenActions, hidden, startsWith.
  rewrite elem_of_filter_bool, andb_true_iff, !negb_true_iff.
  rewrite <- contains_elem_of.
  destruct (contains HIDDEN_ACTIONS (actionName x)),
           (String.prefix "CC" (actionName x)); intuition congruence.
Qed.

Example hidden_BILLABLEDELEGATE n m : hidden (HistoryItem n "BILLABLEDELEGATE" m).
Proof. left. simpl. set_solver. Qed.

Example hidden_CCFOO n m : hidden (HistoryItem n "CCFOO" m).
Proof. by right. Qed.

Lemma cachedHistory_logged s parameters reportID :
  cachedHistory (logged s parameters) reportID = cachedHistory s reportID.
Proof. done. Qed.

(** What [get] resolves with is the filtered cache, and the items that
    were cached are cached still. *)
Lemma get_does_resolved API reportID s s' l :
  get_does API reportID s s' (Val (Resolved l)) ->
  l = filterHiddenActions (cachedHistory s' reportID) /\
  (forall x, x ∈ cachedHistory s reportID -> x ∈ cachedHistory s' reportID).
Proof.
  inversion 1 as [R Hch HA | | c first rest D Hc HE HA |]; subst.
  - rewrite cachedHistory_fetched, Hch. split; [done |].
    intros x Hx. by apply elem_of_nil in Hx.
  - rewrite (cachedHistory_polled _ _ _ _ _ _ Hc HE).
    rewrite (cachedHistory_lookup _ _ _ _ Hc HE). split; [done |].
    intros x Hx. by apply merged_elem_of.
Qed.

Lemma set_does_resolved API reportID reportAction s s' r :
  set_does API reportID reportAction s s' r ->
  forall l, r = Val (Resolved l) ->
  l = filterHiddenActions (cachedHistory s' reportID) /\
  (forall x, x ∈ cachedHistory s reportID -> x ∈ cachedHistory s' reportID).
Proof.
  induction 1 as [s c E Hc HE Hf | s c E Hc HE Hf Hp | s x l s' r Hch Hf Hp Hget
                 | s Hch HA | s s' r Hch HA Hget | s x l s' r Hch HA Hset IH];
    intros l0 Hr.
  - injection Hr as <-. by rewrite (cachedHistory_lookup _ _ _ _ Hc HE).
  - injection Hr as <-.
    assert (cachedHistory
              (State (<[c := reportAction :: E]> (heap s)) (cache s) (calls s)) reportID
            = reportAction :: E) as ->.
    { apply cachedHistory_lookup with (c := c); cbn [heap cache]; [done |].
      apply list_lookup_insert_eq. by eapply lookup_lt_Some. }
    rewrite (cachedHistory_lookup _ _ _ _ Hc HE). split; [done |].
    intros y Hy. by apply list_elem_of_further.
  - subst r. by eapply get_does_resolved.
  - done.
  - subst r. apply get_does_resolved in Hget as [Hl _]. split; [done |].
    rewrite Hch. intros y Hy. by apply elem_of_nil in Hy.
  - destruct (IH l0 Hr) as [Hl _]. split; [done |].
    rewrite Hch. intros y Hy. by apply elem_of_nil in Hy.
Qed.

(** C5: whatever [get] or [set] resolves with holds no item whose
    action is hidden or starts with CC; it is the cached history with
    those items left out, while the cache keeps them: every item cached
    before the call, hidden or not, is cached after it. *)
Theorem returned_history_filtered API s reportID reportAction s' l :
  get API reportID s = (s', Val (Resolved l)) \/
  set API reportID reportAction s = (s', Val (Resolved l)) ->
  (forall x, x ∈ l -> ~ hidden x) /\
  (forall x, x ∈ l ->
     actionName x <> "BILLABLEDELEGATE"%string /\ actionName x <> "CCFOO"%string) /\
  l = filterHiddenActions (cachedHistory s' reportID) /\
  (forall x, x ∈ cachedHistory s reportID -> x ∈ cachedHistory s' reportID).
Proof.
  intros H.
  assert (l = filterHiddenActions (cachedHistory s' reportID) /\
          (forall x, x ∈ cachedHistory s reportID -> x ∈ cachedHistory s' reportID))
    as [Hl Hkept].
  { destruct H as [H | H].
    - pose proof (get_get_does API reportID s) as Hd. rewrite H in Hd.
      by eapply get_does_resolved.
    - pose proof (set_set_does API reportID reportAction s) as Hd. rewrite H in Hd.
      by eapply set_does_resolved. }
  assert (forall x, x ∈ l -> ~ hidden x) as Hvisible.
  { intros x Hx. rewrite Hl in Hx. by apply elem_of_filterHiddenActions in Hx as [_ ?]. }
  split_and!; [done | | done | done].
  intros x Hx. specialize (Hvisible x Hx). destruct x as [n a m]. simpl.
  split; intros ->; apply Hvisible.
  - apply hidden_BILLABLEDELEGATE.
  - apply hidden_CCFOO.
Qed.

Lemma returned_history_filtered_witness :
  let s' := State [[item 6; HistoryItem 5 "CCFOO" "";
                    HistoryItem 4 "BILLABLEDELEGATE" ""; item 3]]
                  {[ 7 := 0%nat ]} [] in
  let l := [item 6; item 3] in
  (forall x, x ∈ l -> ~ hidden x) /\
  (forall x, x ∈ l ->
     actionName x <> "BILLABLEDELEGATE"%string /\ actionName x <> "CCFOO"%string) /\
  l = filterHiddenActions (cachedHistory s' 7) /\
  (forall x, x ∈ cachedHistory store_hidden 7 -> x ∈ cachedHistory s' 7).
Proof.
  apply (returned_history_filtered api_rejecting store_hidden 7 (item 6)).
  right. reflexivity.
Defined.

(** ** A failing API *)

Lemma get_rejected API s reportID :
  API (calls s) (next_request s reportID) = Fail ->
  get API reportID s = (logged s (next_request s reportID), Val Pending).
Proof.
  unfold next_request. destruct (cachedHistory s reportID) as [|first rest] eqn:Hch.
  - intros HA. by rewrite (get_empty _ _ _ Hch), HA.
  - destruct (cachedHistory_cons _ _ _ _ Hch) as (c & Hc & HE).
    intros HA. by rewrite (get_cached _ _ _ _ _ _ Hc HE), HA.
Qed.

Lemma get_does_not_rejected API reportID s s' r :
  get_does API reportID s s' r -> r <> Val Rejected.
Proof. inversion 1; done. Qed.

Lemma set_does_not_rejected API reportID reportAction s s' r :
  set_does API reportID reportAction s s' r -> r <> Val Rejected.
Proof. induction 1; try done; by eapply get_does_not_rejected. Qed.

(** [set] when the item or its predecessor is cached: no request. *)
Lemma set_without_request API s reportID reportAction :
  sequenceNumber reportAction ∈ seqs (cachedHistory s reportID) \/
  sequenceNumber reportAction - 1 ∈ seqs (cachedHistory s reportID) ->
  calls (fst (set API reportID reportAction s)) = calls s /\
  exists l, snd (set API reportID reportAction s) = Val (Resolved l).
Proof.
  intros H. destruct (cachedHistory s reportID) as [|x l] eqn:Hch.
  { destruct H as [H | H]; by apply elem_of_nil in H. }
  destruct (cachedHistory_cons _ _ _ _ Hch) as (c & Hc & HE).
  destruct (findWhere (x :: l) (sequenceNumber reportAction)) as [found |] eqn:Hf.
  - rewrite (set_present _ _ _ _ _ _ _ Hc HE Hf). eauto.
  - destruct H as [H | H].
    + apply findWhere_Some in H as [found H]. congruence.
    + apply findWhere_Some in H as [previous Hp].
      rewrite (set_previous _ _ _ _ _ _ _ Hc HE Hf Hp). eauto.
Qed.

(** [set] when neither the item nor its predecessor is cached and the
    first request fails. *)
Lemma set_rejected API s reportID reportAction :
  sequenceNumber reportAction ∉ seqs (cachedHistory s reportID) ->
  sequenceNumber reportAction - 1 ∉ seqs (cachedHistory s reportID) ->
  API (calls s) (next_request s reportID) = Fail ->
  set API reportID reportAction s
  = (logged s (next_request s reportID), Val Pending).
Proof.
  intros Hf Hp HA. destruct (cachedHistory s reportID) as [|x l] eqn:Hch.
  - unfold next_request in *. rewrite Hch in *. by apply set_empty_Fail.
  - rewrite (set_gap API s reportID reportAction x l);
      [by apply get_rejected | done | by apply findWhere_None | by apply findWhere_None].
Qed.

(** C8, as the code has it.  No promise of the store is ever rejected:
    the store registers no callback for a failure.  When the request of
    [get] fails, its promise is never settled and nothing but the trace
    of requests has changed.  [set] makes no request and resolves when
    the item or its predecessor is cached; otherwise (the item's number
    being a safe integer), when its first request fails, its promise is
    never settled and nothing but the trace has changed; and when it
    starts with a full fetch that succeeds and its second request
    fails, its promise is never settled and the cache holds the history
    fully fetched: the request that succeeded has changed the cache,
    the one that failed has not. *)
Theorem fetch_failure_pending API s reportID reportAction :
  let n := sequenceNumber reportAction in
  let parameters := next_request s reportID in
  (snd (get API reportID s) <> Val Rejected /\
   snd (set API reportID reportAction s) <> Val Rejected) /\
  (API (calls s) parameters = Fail ->
   get API reportID s = (logged s parameters, Val Pending)) /\
  (n ∈ seqs (cachedHistory s reportID) \/ n - 1 ∈ seqs (cachedHistory s reportID) ->
   calls (fst (set API reportID reportAction s)) = calls s /\
   exists l, snd (set API reportID reportAction s) = Val (Resolved l)) /\
  (safe_integer n ->
   n ∉ seqs (cachedHistory s reportID) -> n - 1 ∉ seqs (cachedHistory s reportID) ->
   API (calls s) parameters = Fail ->
   set API reportID reportAction s = (logged s parameters, Val Pending)) /\
  (forall R,
     safe_integer n ->
     cachedHistory s reportID = [] ->
     API (calls s) (Request reportID None) = Done R ->
     n ∉ seqs R -> n - 1 ∉ seqs R ->
     let second := next_request (fetched s reportID R) reportID in
     API (calls s ++ [Request reportID None]) second = Fail ->
     snd (set API reportID reportAction s) = Val Pending /\
     cachedHistory (fst (set API reportID reportAction s)) reportID = R /\
     calls (fst (set API reportID reportAction s))
     = calls s ++ [Request reportID None; second]).
Proof.
  intros n parameters. split_and!.
  - eapply get_does_not_rejected, get_get_does.
  - eapply set_does_not_rejected, set_set_does.
  - apply get_rejected.
  - apply set_without_request.
  - intros _. apply set_rejected.
  - intros R _ Hch HA Hf Hp second HA2.
    assert (set API reportID reportAction s
            = (logged (fetched s reportID R) second, Val Pending)) as ->.
    { rewrite (set_empty_Done _ _ _ _ _ Hch HA). destruct R as [|x l].
      - by apply get_rejected.
      - apply set_rejected; rewrite ?cachedHistory_fetched; done. }
    cbn [fst snd]. split_and!; [done | |].
    + by rewrite cachedHistory_logged, cachedHistory_fetched.
    + unfold logged, fetched. cbn [calls]. by rewrite <- app_assoc.
Qed.

Lemma fetch_failure_pending_witness :
  (snd (get api_rejecting 7 store_5_4) <> Val Rejected /\
   snd (set api_rejecting 7 (item 8) store_5_4) <> Val Rejected) /\
  get api_rejecting 7 store_5_4
  = (logged store_5_4 (next_request store_5_4 7), Val Pending) /\
  (calls (fst (set api_rejecting 7 (item 6) store_5_4)) = calls store_5_4 /\
   exists l, snd (set api_rejecting 7 (item 6) store_5_4) = Val (Resolved l)) /\
  set api_rejecting 7 (item 8) store_5_4
  = (logged store_5_4 (next_request store_5_4 7), Val Pending) /\
  (snd (set api_once 7 (item 8) store_new) = Val Pending /\
   cachedHistory (fst (set api_once 7 (item 8) store_new)) 7 = [item 5; item 4] /\
   calls (fst (set api_once 7 (item 8) store_new))
   = calls store_new
     ++ [Request 7 None;
         next_request (fetched store_new 7 [item 5; item 4]) 7]).
Proof.
  destruct (fetch_failure_pending api_rejecting store_5_4 7 (item 8))
    as (Hnever & Hget & _ & Hset & _).
  destruct (fetch_failure_pending api_rejecting store_5_4 7 (item 6))
    as (_ & _ & Hcached & _ & _).
  destruct (fetch_failure_pending api_once store_new 7 (item 8))
    as (_ & _ & _ & _ & Hsecond).
  split_and!.
  - exact (proj1 Hnever).
  - exact (proj2 Hnever).
  - apply Hget. reflexivity.
  - apply Hcached. right. apply findWhere_Some. vm_compute. eauto.
  - apply Hcached. right. apply findWhere_Some. vm_compute. eauto.
  - apply Hset.
    + unfold safe_integer. simpl. lia.
    + apply findWhere_None. reflexivity.
    + apply findWhere_None. reflexivity.
    + reflexivity.
  - apply (Hsecond [item 5; item 4]).
    + unfold safe_integer. simpl. lia.
    + reflexivity.
    + reflexivity.
    + apply findWhere_None. reflexivity.
    + apply findWhere_None. reflexivity.
    + reflexivity.
  - apply (Hsecond [item 5; item 4]).
    + unfold safe_integer. simpl. lia.
    + reflexivity.
    + reflexivity.
    + apply findWhere_None. reflexivity.
    + apply findWhere_None. reflexivity.
    + reflexivity.
  - apply (Hsecond [item 5; item 4]).
    + unfold safe_integer. simpl. lia.
    + reflexivity.
    + reflexivity.
    + apply findWhere_None. reflexivity.
    + apply findWhere_None. reflexivity.
    + reflexivity.
Defined.

(** C8 as stated fails: with an API that fails, [get] and [set] do not
    hand the caller a failed promise, the promise stays pending. *)
Lemma fetch_failure_counterexample :
  snd (get api_rejecting 7 store_new) = Val Pending /\
  snd (get api_rejecting 7 store_new) <> Val Rejected /\
  snd (set api_rejecting 7 (item 8) store_5_4) = Val Pending /\
  snd (set api_rejecting 7 (item 8) store_5_4) <> Val Rejected.
Proof. split_and!; [reflexivity | discriminate | reflexivity | discriminate]. Qed.

(** ** Setting the same item twice *)

Lemma get_does_settled API reportID s s' r :
  get_does API reportID s s' r ->
  (exists l, r = Val (Resolved l)) \/
  (r = Val Pending /\ cachedHistory s' reportID = cachedHistory s reportID).
Proof. inversion 1; subst; eauto. Qed.

(** When [set] leaves the caller's promise unsettled, the item has not
    made it into the cache. *)
Lemma set_does_settled API reportID reportAction s s' r :
  set_does API reportID reportAction s s' r ->
  (exists l, r = Val (Resolved l)) \/
  (r = Val Pending /\ sequenceNumber reportAction ∉ seqs (cachedHistory s' reportID)).
Proof.
  induction 1 as [s c E Hc HE Hf | s c E Hc HE Hf Hp | s x l s' r Hch Hf Hp Hget
                 | s Hch HA | s s' r Hch HA Hget | s x l s' r Hch HA Hset IH];
    eauto.
  - apply get_does_settled in Hget as [? | [-> Heq]]; [by left | right].
    by rewrite Heq, Hch.
  - right. split; [done |]. rewrite cachedHistory_logged, Hch. apply not_elem_of_nil.
  - apply get_does_settled in Hget as [? | [-> Heq]]; [by left | right].
    rewrite Heq, cachedHistory_fetched. split; [done | apply not_elem_of_nil].
Qed.

Lemma get_does_unique API reportID s s' r :
  (forall log l, API log (Request reportID None) = Done l -> unique_seq l) ->
  get_does API reportID s s' r ->
  unique_seq (cachedHistory s reportID) -> unique_seq (cachedHistory s' reportID).
Proof.
  intros Hfull Hd Hu.
  inversion Hd as [R Hch HA | | c first rest D Hc HE HA |]; subst; try done.
  - rewrite cachedHistory_fetched. eauto.
  - rewrite (cachedHistory_polled _ _ _ _ _ _ Hc HE).
    rewrite (cachedHistory_lookup _ _ _ _ Hc HE) in Hu. by apply merged_unique.
Qed.

Lemma set_does_unique API reportID reportAction s s' r :
  (forall log l, API log (Request reportID None) = Done l -> unique_seq l) ->
  set_does API reportID reportAction s s' r ->
  unique_seq (cachedHistory s reportID) -> unique_seq (cachedHistory s' reportID).
Proof.
  intros Hfull.
  induction 1 as [s c E Hc HE Hf | s c E Hc HE Hf Hp | s x l s' r Hch Hf Hp Hget
                 | s Hch HA | s s' r Hch HA Hget | s x l s' r Hch HA Hset IH];
    intros Hu; try done.
  - rewrite (cachedHistory_lookup _ _ _ _ Hc HE) in Hu.
    erewrite cachedHistory_lookup with (c := c) (l := reportAction :: E);
      cbn [heap cache]; [| done |].
    + unfold unique_seq. simpl. apply NoDup_cons. by split.
    + apply list_lookup_insert_eq. by eapply lookup_lt_Some.
  - by eapply get_does_unique.
  - eapply get_does_unique; [done | done |].
    rewrite cachedHistory_fetched. apply NoDup_nil_2.
  - apply IH. rewrite cachedHistory_fetched. eauto.
Qed.

(** A cached history in which [set] finds the item, or the one before
    it, or to which the API delivers it, holds it after the call. *)
Lemma caches_directly_cached API s reportID reportAction x l :
  cachedHistory s reportID = x :: l ->
  caches_directly API s reportID (sequenceNumber reportAction) ->
  sequenceNumber reportAction
  ∈ seqs (cachedHistory (fst (set API reportID reportAction s)) reportID).
Proof.
  intros Hch H. destruct (cachedHistory_cons _ _ _ _ Hch) as (c & Hc & HE).
  assert (c < length (heap s))%nat as Hlt by (by eapply lookup_lt_Some).
  destruct (findWhere (x :: l) (sequenceNumber reportAction)) as [found |] eqn:Hf.
  - rewrite (set_present _ _ _ _ _ _ _ Hc HE Hf). cbn [fst]. rewrite Hch.
    apply findWhere_Some. eauto.
  - destruct (findWhere (x :: l) (sequenceNumber reportAction - 1))
      as [previous |] eqn:Hp.
    + rewrite (set_previous _ _ _ _ _ _ _ Hc HE Hf Hp). cbn [fst].
      erewrite cachedHistory_lookup with (c := c) (l := reportAction :: x :: l);
        cbn [heap cache]; [| done | by apply list_lookup_insert_eq].
      unfold seqs. simpl. left.
    + rewrite (set_gap _ _ _ _ _ _ Hch Hf Hp).
      unfold caches_directly, next_request in H. rewrite Hch in H.
      destruct H as [H | [H | (D & HA & HD)]].
      * apply findWhere_None in Hf. done.
      * apply findWhere_None in Hp. done.
      * rewrite (get_cached _ _ _ _ _ _ Hc HE), HA. cbn [fst].
        rewrite (cachedHistory_polled _ _ _ _ _ _ Hc HE).
        apply merged_seqs. by left.
Qed.

Lemma set_will_cache_sound API s reportID reportAction :
  set_will_cache API s reportID (sequenceNumber reportAction) ->
  sequenceNumber reportAction
  ∈ seqs (cachedHistory (fst (set API reportID reportAction s)) reportID).
Proof.
  intros [H | (Hch & R & HA & H)].
  - destruct (cachedHistory s reportID) as [|x l] eqn:Hch.
    + unfold caches_directly, next_request in H. rewrite Hch in H.
      destruct H as [H | [H | (R & HA & HR)]]; try by apply elem_of_nil in H.
      rewrite (set_empty_Done _ _ _ _ _ Hch HA).
      destruct R as [|y R]; [by apply elem_of_nil in HR |].
      apply caches_directly_cached with (x := y) (l := R).
      * apply cachedHistory_fetched.
      * left. by rewrite cachedHistory_fetched.
    + by apply caches_directly_cached with (x := x) (l := l).
  - rewrite (set_empty_Done _ _ _ _ _ Hch HA). destruct R as [|y R].
    + unfold caches_directly, next_request in H.
      rewrite cachedHistory_fetched in H.
      destruct H as [H | [H | (D & HA2 & HD)]]; try by apply elem_of_nil in H.
      rewrite get_empty by apply cachedHistory_fetched. rewrite HA2. cbn [fst].
      by rewrite cachedHistory_fetched.
    + apply caches_directly_cached with (x := y) (l := R); [| done].
      apply cachedHistory_fetched.
Qed.

(** C4, as the code has it: when [reportAction]'s sequence number is
    cached already, or its predecessor's is, or the API answers the
    request [set] makes with a history that holds it (where, with
    nothing cached, the same goes for the history first fetched in
    full), or the first [set] leaves it in the cache in any other way,
    then the first call resolves and leaves it cached, and a
    second [set] of the same item resolves with the same filtered
    history and leaves the whole state, trace of requests included, as
    it is, whatever the API would answer.  If moreover no sequence
    number was cached twice and the API delivers none twice in a full
    history, the cache then holds exactly one item with that sequence
    number. *)
Theorem set_twice API s reportID reportAction :
  let n := sequenceNumber reportAction in
  let s1 := fst (set API reportID reportAction s) in
  set_will_cache API s reportID n \/ n ∈ seqs (cachedHistory s1 reportID) ->
  exists l,
    snd (set API reportID reportAction s) = Val (Resolved l) /\
    (forall API', set API' reportID reportAction s1 = (s1, Val (Resolved l))) /\
    n ∈ seqs (cachedHistory s1 reportID) /\
    (unique_seq (cachedHistory s reportID) ->
     (forall log l', API log (Request reportID None) = Done l' -> unique_seq l') ->
     count_seq n (cachedHistory s1 reportID) = 1%nat).
Proof.
  intros n s1 H.
  assert (n ∈ seqs (cachedHistory s1 reportID)) as Hin.
  { destruct H as [H | H]; [by apply set_will_cache_sound | done]. }
  pose proof (set_set_does API reportID reportAction s) as Hd. fold s1 in Hd.
  destruct (set_does_settled _ _ _ _ _ _ Hd) as [[l Hr] | [_ Hno]]; [| done].
  exists l. split; [done |].
  destruct (set_does_resolved _ _ _ _ _ _ Hd l Hr) as [Hl _].
  split_and!; [| done |].
  - intros API'. destruct (cachedHistory s1 reportID) as [|x E] eqn:Hch.
    { by apply elem_of_nil in Hin. }
    destruct (cachedHistory_cons _ _ _ _ Hch) as (c & Hc & HE).
    apply findWhere_Some in Hin as [found Hf].
    by rewrite (set_present _ _ _ _ _ _ _ Hc HE Hf), Hl.
  - intros Hu Hfull. apply count_seq_unique; [| done]. by eapply set_does_unique.
Qed.

Lemma set_twice_witness :
  let s1 := fst (set (api_newest_first log_8_to_4) 7 (item 8) store_5_4) in
  exists l,
    snd (set (api_newest_first log_8_to_4) 7 (item 8) store_5_4) = Val (Resolved l) /\
    (forall API', set API' 7 (item 8) s1 = (s1, Val (Resolved l))) /\
    sequenceNumber (item 8) ∈ seqs (cachedHistory s1 7) /\
    count_seq (sequenceNumber (item 8)) (cachedHistory s1 7) = 1%nat.
Proof.
  destruct (set_twice (api_newest_first log_8_to_4) store_5_4 7 (item 8))
    as (l & Hfirst & Hsecond & Hin & Hcount).
  - left. left. right. right. exists [item 8; item 7; item 6].
    split; [reflexivity |]. apply findWhere_Some. vm_compute. eauto.
  - exists l. split_and!; [exact Hfirst | exact Hsecond | exact Hin |].
    apply Hcount.
    + apply newest_first_unique. solve_newest_first.
    + intros log l' [= <-]. apply newest_first_unique. solve_newest_first.
Defined.

(** Twice the item 5 on the cache [5, 5, 4], which holds 5 twice: the
    second call changes nothing either. *)
Example set_5_twice_on_5_5_4 :
  let s := State [[item 5; item 5; item 4]] {[ 7 := 0%nat ]} [] in
  set api_rejecting 7 (item 5) s = (s, Val (Resolved [item 5; item 5; item 4])) /\
  set api_rejecting 7 (item 5) (fst (set api_rejecting 7 (item 5) s))
  = (s, Val (Resolved [item 5; item 5; item 4])).
Proof. split; reflexivity. Qed.

(** The item 8 set twice on the cache [5, 4], the API holding 8 to 4:
    the first call fetches, the second does not. *)
Example set_8_twice :
  let api := api_newest_first log_8_to_4 in
  let s1 := fst (set api 7 (item 8) store_5_4) in
  cachedHistory s1 7 = [item 8; item 7; item 6; item 5; item 4] /\
  set api 7 (item 8) s1
  = (s1, Val (Resolved [item 8; item 7; item 6; item 5; item 4])).
Proof. split; reflexivity. Qed.

(** C4 as stated fails: the item 8 is set on the cache [5, 4] while the
    API knows nothing newer than 5.  The first call fetches and finds
    nothing; the second call fetches again and allocates, and the cache
    holds no item with sequence number 8. *)
Lemma set_twice_counterexample :
  let api := api_newest_first [item 5; item 4] in
  let s1 := fst (set api 7 (item 8) store_5_4) in
  let s2 := fst (set api 7 (item 8) s1) in
  calls s1 = [Request 7 (Some 5)] /\
  calls s2 = [Request 7 (Some 5); Request 7 (Some 5)] /\
  s2 <> s1 /\
  count_seq 8 (cachedHistory s2 7) = 0%nat.
Proof. split_and!; [reflexivity | reflexivity | discriminate | reflexivity]. Qed.

(** ** The cache invariant *)





Section Invariant.

Variable API : list request -> request -> response.

(** The API delivers every history newest first... *)
Hypothesis delivers_newest_first :
  forall log parameters l, API log parameters = Done l -> newest_first l.

(** ... and with an offset only items of a larger sequence number. *)
Hypothesis honors_offset :
  forall log reportID n l,
    API log (Request reportID (Some n)) = Done l ->
    Forall (fun x => n < sequenceNumber x) l.



End Invariant.





Lemma cache_invariant_single E reportID requests :
  newest_first E -> cache_invariant (State [E] {[ reportID := 0%nat ]} requests).
Proof.
  intros HE. split.
  - intros rid a H. cbn [cache] in H.
    apply lookup_singleton_Some in H as [_ <-]. simpl. lia.
  - intros rid. unfold cachedHistory. cbn [cache].
    destruct (decide (reportID = rid)) as [-> | Hne].
    + by rewrite lookup_singleton_eq.
    + rewrite lookup_singleton_ne by done. constructor.
Qed.



(** [set] does not look where the item belongs either: with [5, 3]
    cached, the item 4 follows a cached one and is put in front. *)
Example set_previous_unsorted :
  let s := State [[item 5; item 3]] {[ 7 := 0%nat ]} [] in
  cache_invariant s /\
  cachedHistory (fst (set api_rejecting 7 (item 4) s)) 7 = [item 4; item 5; item 3].
Proof. split; [apply cache_invariant_single; solve_newest_first | reflexivity]. Qed.

(** * Further properties of the store *)

(** ** Requests *)

Lemma get_does_Val API reportID s s' r :
  get_does API reportID s s' r -> exists d, r = Val d.
Proof. inversion 1; eauto. Qed.

Lemma set_does_Val API reportID reportAction s s' r :
  set_does API reportID reportAction s s' r -> exists d, r = Val d.
Proof. induction 1; eauto using get_does_Val. Qed.

Lemma get_does_calls API reportID s s' r :
  get_does API reportID s s' r ->
  calls s' = calls s ++
    [Request reportID
       (match cachedHistory s reportID with
        | [] => None
        | firstHistoryItem :: _ => Some (sequenceNumber firstHistoryItem)
        end)].
Proof.
  inversion 1 as [R Hch HA | Hch HA | c first rest D Hc HE HA | c first rest Hc HE HA];
    subst; cbn [calls fetched logged polled];
    try rewrite Hch; try rewrite (cachedHistory_lookup _ _ _ _ Hc HE); done.
Qed.

(** The public [get] never answers from the cache alone: in every
    state it makes exactly one request, for the whole history when
    nothing is cached (or the cached array is empty), and otherwise
    from the sequence number of the first cached item on, whether or
    not that item is the newest. *)
Theorem get_one_request API s reportID :
  calls (fst (get API reportID s)) = calls s ++
    [Request reportID
       (match cachedHistory s reportID with
        | [] => None
        | firstHistoryItem :: _ => Some (sequenceNumber firstHistoryItem)
        end)].
Proof. eapply get_does_calls, get_get_does. Qed.

Lemma set_does_calls API rid reportAction s s' r :
  set_does API rid reportAction s s' r ->
  exists requests,
    calls s' = calls s ++ requests /\
    (length requests <= 2)%nat /\
    (cachedHistory s rid <> [] -> (length requests <= 1)%nat) /\
    Forall (fun parameters => reportID parameters = rid) requests.
Proof.
  induction 1 as [s c E Hc HE Hf | s c E Hc HE Hf Hp | s x l s' r Hch Hf Hp Hget
                 | s Hch HA | s s' r Hch HA Hget | s x l s' r Hch HA Hset IH].
  - exists []. rewrite app_nil_r. simpl. split_and!; [done | lia | lia | done].
  - exists []. rewrite app_nil_r. simpl. split_and!; [done | lia | lia | done].
  - apply get_does_calls in Hget. eexists. split; [exact Hget |].
    simpl. split_and!; [lia | lia | by repeat constructor].
  - eexists. split; [done |]. simpl. split_and!; [lia | done | by repeat constructor].
  - apply get_does_calls in Hget. eexists. split.
    + rewrite Hget. cbn [calls fetched]. by rewrite <- app_assoc.
    + simpl. split_and!; [lia | done | by repeat constructor].
  - destruct IH as (requests & Hcalls & _ & Hone & Hall).
    exists (Request rid None :: requests). split.
    + rewrite Hcalls. cbn [calls fetched]. by rewrite <- app_assoc.
    + rewrite cachedHistory_fetched in Hone. simpl.
      split_and!; [| done | by constructor].
      assert (length requests <= 1)%nat by (by apply Hone). lia.
Qed.

(** The public [set] makes at most two requests, all of them for the
    report it was called for, and at most one when a history is cached:
    two are made only when nothing is cached. *)
Theorem set_at_most_two_requests API s rid reportAction :
  exists requests,
    calls (fst (set API rid reportAction s)) = calls s ++ requests /\
    (length requests <= 2)%nat /\
    (cachedHistory s rid <> [] -> (length requests <= 1)%nat) /\
    Forall (fun parameters => reportID parameters = rid) requests.
Proof. eapply set_does_calls, set_set_does. Qed.

(** When nothing is cached and the API resolves the full fetch with an
    empty history, [set] finds the cache still empty and fetches the
    whole history a second time. *)
Theorem set_fetches_twice API s reportID reportAction :
  cachedHistory s reportID = [] ->
  API (calls s) (Request reportID None) = Done [] ->
  calls (fst (set API reportID reportAction s))
  = calls s ++ [Request reportID None; Request reportID None].
Proof.
  intros Hch HA. rewrite (set_empty_Done _ _ _ _ _ Hch HA).
  rewrite get_empty by apply cachedHistory_fetched.
  destruct (API (calls (fetched s reportID [])) _);
    unfold fetched, logged; cbn [fst calls]; by rewrite <- app_assoc.
Qed.

Lemma set_fetches_twice_witness :
  calls (fst (set (api_newest_first []) 7 (item 8) store_new))
  = calls store_new ++ [Request 7 None; Request 7 None].
Proof.
  apply (set_fetches_twice (api_newest_first []) store_new 7 (item 8)).
  - reflexivity.
  - reflexivity.
Defined.

(** ** Settling *)

(** Neither public method ever throws: the methods called on
    [this.cache[reportID]] in [set] and [mergeItems] are only reached
    when an array is cached. *)
Theorem methods_never_throw API s reportID reportAction :
  snd (get API reportID s) <> TypeError /\
  snd (set API reportID reportAction s) <> TypeError.
Proof.
  split.
  - destruct (get_does_Val _ _ _ _ _ (get_get_does API reportID s)) as [d ->]. done.
  - destruct (set_does_Val _ _ _ _ _ _ (set_set_does API reportID reportAction s))
      as [d ->]. done.
Qed.

Lemma get_does_resolves API reportID s s' r :
  (forall log parameters, API log parameters <> Fail) ->
  get_does API reportID s s' r -> exists l, r = Val (Resolved l).
Proof. intros HA. inversion 1; subst; eauto; by destruct (HA _ _ ltac:(eassumption)). Qed.

Lemma set_does_resolves API reportID reportAction s s' r :
  (forall log parameters, API log parameters <> Fail) ->
  set_does API reportID reportAction s s' r -> exists l, r = Val (Resolved l).
Proof.
  intros HA. induction 1; eauto using get_does_resolves.
  by destruct (HA _ _ ltac:(eassumption)).
Qed.

(** With an API that never fails a request, the promises [get] and
    [set] return are always resolved. *)
Theorem methods_resolve API s reportID reportAction :
  (forall log parameters, API log parameters <> Fail) ->
  (exists l, snd (get API reportID s) = Val (Resolved l)) /\
  (exists l, snd (set API reportID reportAction s) = Val (Resolved l)).
Proof.
  intros HA. split.
  - eapply get_does_resolves; [done | apply get_get_does].
  - eapply set_does_resolves; [done | apply set_set_does].
Qed.

Lemma methods_resolve_witness :
  (exists l, snd (get (api_newest_first log_8_to_4) 7 store_5_4) = Val (Resolved l)) /\
  (exists l, snd (set (api_newest_first log_8_to_4) 7 (item 8) store_5_4)
             = Val (Resolved l)).
Proof.
  apply (methods_resolve (api_newest_first log_8_to_4) store_5_4 7 (item 8)).
  intros log parameters. unfold api_newest_first.
  destruct (offset parameters); discriminate.
Defined.

(** ** What the methods leave alone *)





(** ** More on [set] and [get] *)

(** [set] of an item whose sequence number is cached changes nothing
    and asks nothing: the cached item stays as it is, also when the
    item set differs from it, and the promise resolves with the cached
    history, filtered. *)
Theorem set_keeps_cached_item API s reportID reportAction :
  sequenceNumber reportAction ∈ seqs (cachedHistory s reportID) ->
  set API reportID reportAction s
  = (s, Val (Resolved (filterHiddenActions (cachedHistory s reportID)))).
Proof.
  intros Hin. destruct (cachedHistory s reportID) as [|x l] eqn:Hch.
  { by apply elem_of_nil in Hin. }
  destruct (cachedHistory_cons _ _ _ _ Hch) as (c & Hc & HE).
  apply findWhere_Some in Hin as [found Hf].
  by rewrite (set_present _ _ _ _ _ _ _ Hc HE Hf).
Qed.

Lemma set_keeps_cached_item_witness :
  set api_rejecting 7 item_5_edited store_5_4
  = (store_5_4, Val (Resolved (filterHiddenActions (cachedHistory store_5_4 7)))).
Proof.
  apply (set_keeps_cached_item api_rejecting store_5_4 7 item_5_edited).
  apply findWhere_Some. vm_compute. eauto.
Defined.

(** When a history is cached that holds neither the item nor its
    predecessor (the item's number being a safe integer, so that the
    code computes the predecessor exactly), [set] does exactly what
    [get] does: same requests, same state, same value; the item itself
    is not used. *)
Theorem set_on_gap_is_get API s reportID reportAction :
  safe_integer (sequenceNumber reportAction) ->
  cachedHistory s reportID <> [] ->
  sequenceNumber reportAction ∉ seqs (cachedHistory s reportID) ->
  sequenceNumber reportAction - 1 ∉ seqs (cachedHistory s reportID) ->
  set API reportID reportAction s = get API reportID s.
Proof.
  intros _ Hne Hf Hp. destruct (cachedHistory s reportID) as [|x l] eqn:Hch; [done |].
  apply set_gap with (x := x) (l := l); [done | |]; by apply findWhere_None.
Qed.

Lemma set_on_gap_is_get_witness :
  set (api_newest_first log_8_to_4) 7 (item 8) store_5_4
  = get (api_newest_first log_8_to_4) 7 store_5_4.
Proof.
  apply (set_on_gap_is_get (api_newest_first log_8_to_4) store_5_4 7 (item 8)).
  - unfold safe_integer. simpl. lia.
  - discriminate.
  - apply findWhere_None. reflexivity.
  - apply findWhere_None. reflexivity.
Defined.

(** When the API has nothing newer than what is cached, [get] leaves
    [this.cache] and the cached history as they are and resolves with
    the cached history, filtered. *)
Theorem get_nothing_new API s reportID first rest :
  cachedHistory s reportID = first :: rest ->
  API (calls s) (Request reportID (Some (sequenceNumber first))) = Done [] ->
  cache (fst (get API reportID s)) = cache s /\
  cachedHistory (fst (get API reportID s)) reportID = first :: rest /\
  snd (get API reportID s) = Val (Resolved (filterHiddenActions (first :: rest))).
Proof.
  intros Hch HA. destruct (cachedHistory_cons _ _ _ _ Hch) as (c & Hc & HE).
  rewrite (get_cached _ _ _ _ _ _ Hc HE), HA. cbn [fst snd].
  split_and!; [done | | done].
  by rewrite (cachedHistory_polled _ _ _ _ _ _ Hc HE).
Qed.

Lemma get_nothing_new_witness :
  cache (fst (get (api_newest_first [item 5; item 4]) 7 store_5_4)) = cache store_5_4 /\
  cachedHistory (fst (get (api_newest_first [item 5; item 4]) 7 store_5_4)) 7
  = item 5 :: [item 4] /\
  snd (get (api_newest_first [item 5; item 4]) 7 store_5_4)
  = Val (Resolved (filterHiddenActions (item 5 :: [item 4]))).
Proof.
  apply (get_nothing_new (api_newest_first [item 5; item 4]) store_5_4 7
           (item 5) [item 4]).
  - reflexivity.
  - reflexivity.
Defined.

(** ** More on [mergeItems] *)

Lemma merged_from D E x : x ∈ merged D E -> x ∈ D \/ x ∈ E.
Proof.
  induction D as [|y D IH]; [by right |].
  rewrite merged_cons. unfold mergeStep. destruct (absent (merged D E) y).
  - rewrite !elem_of_cons. intros [-> | H]; [by left; left |].
    destruct (IH H); [left; by right | by right].
  - intros H. rewrite elem_of_cons. destruct (IH H); [left; by right | by right].
Qed.

(** [mergeItems] into a history cached in another array than the
    batch, for every batch. *)
Lemma mergeItems_cachedHistory s reportID c d D E :
  cache s !! reportID = Some c -> c <> d ->
  heap s !! c = Some E -> heap s !! d = Some D ->
  snd (mergeItems reportID d s) = Val tt /\
  cachedHistory (fst (mergeItems reportID d s)) reportID = merged D E.
Proof.
  intros Hc Hcd HE HD.
  assert (c < length (heap s))%nat as Hlt by (by eapply lookup_lt_Some).
  destruct D as [|x D'] eqn:ED.
  - rewrite mergeItems_empty by (by apply items_lookup).
    split; [done |]. by apply cachedHistory_lookup with (c := c).
  - rewrite <- ED in *.
    rewrite (mergeItems_merged _ _ _ _ _ _ Hc Hcd HE HD) by (by subst D).
    split; [done |]. cbn [fst].
    apply cachedHistory_lookup with (c := c); cbn [heap cache]; [done |].
    apply list_lookup_insert_eq. by rewrite length_insert.
Qed.

(** Whatever the batch holds, in whatever order and also with repeated
    sequence numbers, [mergeItems] returns normally, keeps the cached
    history as the tail of the new one, adds only items of the batch,
    ends with exactly the sequence numbers of the batch and of the
    cache, and adds no sequence number a second time. *)
Theorem mergeItems_any_batch s reportID c d D E :
  cache s !! reportID = Some c -> c <> d ->
  heap s !! c = Some E -> heap s !! d = Some D ->
  let now_cached := cachedHistory (fst (mergeItems reportID d s)) reportID in
  snd (mergeItems reportID d s) = Val tt /\
  E `suffix_of` now_cached /\
  (forall x, x ∈ now_cached -> x ∈ D \/ x ∈ E) /\
  (forall n, n ∈ seqs now_cached <-> n ∈ seqs D \/ n ∈ seqs E) /\
  (unique_seq E -> unique_seq now_cached).
Proof.
  intros Hc Hcd HE HD now_cached.
  destruct (mergeItems_cachedHistory _ _ _ _ _ _ Hc Hcd HE HD) as [Hr Hm].
  unfold now_cached. rewrite Hm. split_and!.
  - done.
  - destruct (merged_suffix D E) as [N ->]. by exists N.
  - apply merged_from.
  - apply merged_seqs.
  - apply merged_unique.
Qed.

Lemma mergeItems_any_batch_witness :
  let now_cached := cachedHistory (fst (mergeItems 7 1%nat store_overlap)) 7 in
  snd (mergeItems 7 1%nat store_overlap) = Val tt /\
  [item 5; item 4] `suffix_of` now_cached /\
  (forall x, x ∈ now_cached -> x ∈ [item 4; item 5; item 6] \/ x ∈ [item 5; item 4]) /\
  (forall n, n ∈ seqs now_cached
             <-> n ∈ seqs [item 4; item 5; item 6] \/ n ∈ seqs [item 5; item 4]) /\
  (unique_seq [item 5; item 4] -> unique_seq now_cached).
Proof.
  apply (mergeItems_any_batch store_overlap 7 0%nat 1%nat
           [item 4; item 5; item 6] [item 5; item 4]).
  - reflexivity.
  - discriminate.
  - reflexivity.
  - reflexivity.
Defined.

(** The batch 4, 5, 6 merged into the cache [5, 4] gives [6, 5, 4]. *)
Example mergeItems_4_5_6 :
  cachedHistory (fst (mergeItems 7 1%nat store_overlap)) 7 = [item 6; item 5; item 4].
Proof. reflexivity. Qed.

(** The reduction when the batch is the cached array itself: every item
    is found in the array it comes from, nothing is written. *)
Lemma reduce_from_alias n : forall i s c R,
  heap s !! c = Some R -> (i + n <= length R)%nat ->
  reduce_from c mergeIteratee (Some c) i n s = (s, Val (Some c)).
Proof.
  induction n as [|n IH]; intros i s c R Hc Hlen; [done |].
  destruct (lookup_lt_is_Some_2 R i) as [curr Hcurr]; [lia |].
  rewrite reduce_from_S, (items_lookup _ _ _ Hc), Hcurr.
  assert (is_Some (findWhere (items s c) (sequenceNumber curr))) as [found Hf].
  { apply findWhere_Some, elem_of_seqs. exists curr. split; [| done].
    rewrite (items_lookup _ _ _ Hc). by eapply list_elem_of_lookup_2. }
  rewrite (mergeIteratee_found _ _ _ _ Hf). apply IH with (R := R); [done | lia].
Qed.

(** When the batch handed to [mergeItems] is the array cached for the
    report, the cached history ends up reversed, oldest first, and
    nothing is added. *)
Theorem mergeItems_of_the_cache s reportID c E :
  cache s !! reportID = Some c -> heap s !! c = Some E ->
  mergeItems reportID c s
  = (State (<[c := rev E]> (heap s)) (cache s) (calls s), Val tt) /\
  cachedHistory (fst (mergeItems reportID c s)) reportID = rev E.
Proof.
  intros Hc HE.
  assert (c < length (heap s))%nat as Hlt by (by eapply lookup_lt_Some).
  assert (mergeItems reportID c s
          = (State (<[c := rev E]> (heap s)) (cache s) (calls s), Val tt)) as Hm.
  { rewrite mergeItems_unfold, (items_lookup _ _ _ HE), Hc.
    destruct E as [|x E'] eqn:EE.
    - simpl. rewrite list_insert_id by done. by rewrite state_eta.
    - rewrite <- EE in *. cbn zeta. rewrite items_insert_eq by done.
      rewrite reduce_from_alias with (R := rev E); cbn [heap]; [| | lia].
      + unfold cache_set. cbn [heap cache calls]. by rewrite insert_id.
      + by apply list_lookup_insert_eq. }
  split; [done |]. rewrite Hm. cbn [fst].
  apply cachedHistory_lookup with (c := c); cbn [heap cache]; [done |].
  by apply list_lookup_insert_eq.
Qed.

Lemma mergeItems_of_the_cache_witness :
  mergeItems 7 0%nat store_5_4
  = (State (<[0%nat := rev [item 5; item 4]]> (heap store_5_4))
           (cache store_5_4) (calls store_5_4), Val tt) /\
  cachedHistory (fst (mergeItems 7 0%nat store_5_4)) 7 = rev [item 5; item 4].
Proof.
  apply (mergeItems_of_the_cache store_5_4 7 0%nat [item 5; item 4]).
  - reflexivity.
  - reflexivity.
Defined.

(** ** The array the API resolves with *)

(** [fetchAll] makes the very array the API resolved with the cache of
    the report, whatever was cached before, and leaves every older
    array as it is; when the API fails it hands back the API's rejected
    deferred and changes nothing but the trace of requests. *)
Theorem fetchAll_installs API s reportID :
  match API (calls s) (Request reportID None) with
  | Done l =>
      exists a,
        snd (API_Report_GetHistory API (Request reportID None) s) = Val (Resolved a) /\
        snd (fetchAll API reportID s) = Val (Resolved a) /\
        cache (fst (fetchAll API reportID s)) !! reportID = Some a /\
        cachedHistory (fst (fetchAll API reportID s)) reportID = l /\
        forall b, (b < length (heap s))%nat ->
                  heap (fst (fetchAll API reportID s)) !! b = heap s !! b
  | Fail =>
      fetchAll API reportID s = (logged s (Request reportID None), Val Rejected)
  end.
Proof.
  destruct (API (calls s) (Request reportID None)) as [l |] eqn:HA.
  - exists (length (heap s)).
    rewrite (API_Done _ _ _ _ HA), (fetchAll_Done _ _ _ _ HA). cbn [fst snd].
    split_and!; [done | done | | apply cachedHistory_fetched |].
    + unfold fetched. cbn [cache]. apply lookup_insert_eq.
    + intros b Hb. unfold fetched. cbn [heap]. by apply lookup_app_l.
  - by apply fetchAll_Fail.
Qed.

(** The cache is the API's array, not a copy of it: after [get] has
    loaded a history, a [set] that puts an item in front of the cache
    changes the array the API resolved with. *)
Theorem set_changes_the_API_array API API' s reportID reportAction l a :
  cachedHistory s reportID = [] ->
  API (calls s) (Request reportID None) = Done l ->
  snd (API_Report_GetHistory API (Request reportID None) s) = Val (Resolved a) ->
  sequenceNumber reportAction - 1 ∈ seqs l ->
  sequenceNumber reportAction ∉ seqs l ->
  let s1 := fst (get API reportID s) in
  heap s1 !! a = Some l /\
  heap (fst (set API' reportID reportAction s1)) !! a = Some (reportAction :: l).
Proof.
  intros Hch HA Ha Hp Hf s1.
  rewrite (API_Done _ _ _ _ HA) in Ha. injection Ha as <-.
  assert (s1 = fetched s reportID l) as -> by (unfold s1; by rewrite get_empty, HA).
  assert (heap (fetched s reportID l) !! length (heap s) = Some l) as Hl.
  { unfold fetched. cbn [heap]. by rewrite lookup_app_r, Nat.sub_diag. }
  split; [done |].
  apply findWhere_Some in Hp as [previous Hp]. apply findWhere_None in Hf.
  rewrite (set_previous API' (fetched s reportID l) reportID reportAction
             (length (heap s)) l previous); [| | done | done | done].
  - cbn [fst heap]. apply list_lookup_insert_eq. by eapply lookup_lt_Some.
  - unfold fetched. cbn [cache]. apply lookup_insert_eq.
Qed.

Lemma set_changes_the_API_array_witness :
  let s1 := fst (get (api_newest_first [item 5; item 4]) 7 store_new) in
  heap s1 !! 0%nat = Some [item 5; item 4] /\
  heap (fst (set api_rejecting 7 (item 6) s1)) !! 0%nat
  = Some (item 6 :: [item 5; item 4]).
Proof.
  apply (set_changes_the_API_array (api_newest_first [item 5; item 4]) api_rejecting
           store_new 7 (item 6) [item 5; item 4] 0%nat).
  - reflexivity.
  - reflexivity.
  - reflexivity.
  - apply findWhere_Some. vm_compute. eauto.
  - apply findWhere_None. reflexivity.
Defined.

(** ** More on the filter *)

Lemma filter_again {A} (f : A -> bool) (l : list A) :
  List.filter f (List.filter f l) = List.filter f l.
Proof.
  induction l as [|x l IH]; [done |]. cbn [List.filter].
  destruct (f x) eqn:Hx; [| done]. cbn [List.filter]. rewrite Hx. by f_equal.
Qed.

Lemma filter_sublist_of {A} (f : A -> bool) (l : list A) :
  List.filter f l `sublist_of` l.
Proof.
  induction l as [|x l IH]; [done |]. cbn [List.filter].
  destruct (f x); [by apply sublist_skip | by apply sublist_cons].
Qed.

(** Filtering what has been filtered changes nothing, the filter keeps
    the order of the items it lets through, and a history filtered
    piece by piece is the filtered history. *)
Theorem filterHiddenActions_again l1 l2 :
  filterHiddenActions (filterHiddenActions l1) = filterHiddenActions l1 /\
  filterHiddenActions l1 `sublist_of` l1 /\
  filterHiddenActions (l1 ++ l2) = filterHiddenActions l1 ++ filterHiddenActions l2.
Proof.
  unfold filterHiddenActions. split_and!.
  - apply filter_again.
  - apply filter_sublist_of.
  - apply List.filter_app.
Qed.

(** ** How the methods compose *)

(** Any item [get] has returned can be set afterwards at no cost: the
    [set] makes no request, changes nothing and resolves with the same
    history. *)
Theorem set_after_get API API' s reportID s1 l x :
  get API reportID s = (s1, Val (Resolved l)) -> x ∈ l ->
  set API' reportID x s1 = (s1, Val (Resolved l)).
Proof.
  intros Hget Hx.
  pose proof (get_get_does API reportID s) as Hd. rewrite Hget in Hd.
  cbn [fst snd] in Hd. apply get_does_resolved in Hd as [Hl _].
  assert (sequenceNumber x ∈ seqs (cachedHistory s1 reportID)) as Hin.
  { apply elem_of_seqs. exists x. split; [| done].
    rewrite Hl in Hx. by apply elem_of_filterHiddenActions in Hx as [? _]. }
  destruct (cachedHistory s1 reportID) as [|y E] eqn:Hch.
  { by apply elem_of_nil in Hin. }
  destruct (cachedHistory_cons _ _ _ _ Hch) as (c & Hc & HE).
  apply findWhere_Some in Hin as [found Hf].
  rewrite (set_present _ _ _ _ _ _ _ Hc HE Hf). congruence.
Qed.

Lemma set_after_get_witness :
  set api_rejecting 7 (item 7)
      (fst (get (api_newest_first log_8_to_4) 7 store_5_4))
  = (fst (get (api_newest_first log_8_to_4) 7 store_5_4),
     Val (Resolved log_8_to_4)).
Proof.
  apply (set_after_get (api_newest_first log_8_to_4) api_rejecting store_5_4 7).
  - reflexivity.
  - vm_compute. do 1 right. left.
Defined.

(** Nothing the API delivers to [get] is lost: every sequence number
    of the history it resolves the request with, hidden items
    included, is cached afterwards. *)
Theorem get_caches_what_is_delivered API s reportID D :
  API (calls s)
      (Request reportID
         (match cachedHistory s reportID with
          | [] => None
          | firstHistoryItem :: _ => Some (sequenceNumber firstHistoryItem)
          end)) = Done D ->
  forall x, x ∈ D ->
    sequenceNumber x ∈ seqs (cachedHistory (fst (get API reportID s)) reportID).
Proof.
  intros HA x Hx. destruct (cachedHistory s reportID) as [|first rest] eqn:Hch.
  - rewrite (get_empty _ _ _ Hch), HA. cbn [fst].
    rewrite cachedHistory_fetched. apply elem_of_seqs. eauto.
  - destruct (cachedHistory_cons _ _ _ _ Hch) as (c & Hc & HE).
    rewrite (get_cached _ _ _ _ _ _ Hc HE), HA. cbn [fst].
    rewrite (cachedHistory_polled _ _ _ _ _ _ Hc HE).
    apply merged_seqs. left. apply elem_of_seqs. eauto.
Qed.

Lemma get_caches_what_is_delivered_witness :
  sequenceNumber (item 7)
  ∈ seqs (cachedHistory (fst (get (api_newest_first log_8_to_4) 7 store_5_4)) 7).
Proof.
  apply (get_caches_what_is_delivered (api_newest_first log_8_to_4) store_5_4 7
           [item 8; item 7; item 6]).
  - reflexivity.
  - right. left.
Defined.

Lemma filterHiddenActions_hidden x l :
  hidden x -> filterHiddenActions (x :: l) = filterHiddenActions l.
Proof.
  unfold filterHiddenActions, hidden, startsWith. cbn [List.filter].
  intros [H | H].
  - apply contains_elem_of in H. by rewrite H.
  - rewrite H. by rewrite andb_false_r.
Qed.

(** A hidden item set on the fast path is cached, in front, but the
    caller does not get to see it: the promise resolves with the
    history that was cached before, filtered. *)
Theorem set_hidden_item API s reportID reportAction c E :
  cache s !! reportID = Some c -> heap s !! c = Some E ->
  sequenceNumber reportAction - 1 ∈ seqs E ->
  sequenceNumber reportAction ∉ seqs E ->
  hidden reportAction ->
  cachedHistory (fst (set API reportID reportAction s)) reportID = reportAction :: E /\
  snd (set API reportID reportAction s) = Val (Resolved (filterHiddenActions E)).
Proof.
  intros Hc HE Hp Hf Hh.
  apply findWhere_Some in Hp as [previous Hp]. apply findWhere_None in Hf.
  rewrite (set_previous _ _ _ _ _ _ _ Hc HE Hf Hp). cbn [fst snd]. split.
  - apply cachedHistory_lookup with (c := c); cbn [heap cache]; [done |].
    apply list_lookup_insert_eq. by eapply lookup_lt_Some.
  - by rewrite filterHiddenActions_hidden.
Qed.

Lemma set_hidden_item_witness :
  cachedHistory (fst (set api_rejecting 7 item_6_hidden store_5_4)) 7
  = item_6_hidden :: [item 5; item 4] /\
  snd (set api_rejecting 7 item_6_hidden store_5_4)
  = Val (Resolved (filterHiddenActions [item 5; item 4])).
Proof.
  apply (set_hidden_item api_rejecting store_5_4 7 item_6_hidden 0%nat [item 5; item 4]).
  - reflexivity.
  - reflexivity.
  - apply findWhere_Some. vm_compute. eauto.
  - apply findWhere_None. reflexivity.
  - by right.
Defined.
